(** * Timed node traversal: validation, tree construction and scheduling

    A shallow embedding of [main.py]: the start-node scan
    ([get_start_nodes]), the cycle check ([is_cyclical]), the validator
    ([validate_spec]), the tree builder ([build_dag], [parse_spec]) and the
    asyncio traversal ([run_workflow], [run_workflow_after]).

    Python dictionaries keep insertion order, and the order of a node's
    edges is observable, so a dictionary is an association list in
    insertion order.  Exceptions are values of [outcome].  Recursion that
    Python does not bound is bounded here by a fuel argument which counts
    the depth of the call stack; the theorems show how much fuel is
    enough. *)

From Stdlib Require Import String List Bool Arith Lia QArith Lqa Permutation.
Import ListNotations.

Open Scope string_scope.
Open Scope list_scope.
Open Scope nat_scope.

#[local] Set Warnings "-register-all".

(** ** Parsed JSON and the raw graph *)

(** The values [json.loads] can bind to a key. *)
Inductive json : Type :=
| JNull
| JBool (b : bool)
| JNum (q : Q)
| JStr (s : string)
| JArr (items : list json)
| JObj (fields : list (string * json)).

(** Python's truth value of a parsed JSON value ([bool(v)]). *)
Definition truthy (v : json) : bool :=
  match v with
  | JNull => false
  | JBool b => b
  | JNum q => negb (Qeq_bool q 0)
  | JStr s => negb (String.eqb s "")
  | JArr items => match items with [] => false | _ => true end
  | JObj fields => match fields with [] => false | _ => true end
  end.

(** [v is True]: identity with the singleton [True]. *)
Definition is_True (v : json) : bool :=
  match v with
  | JBool true => true
  | _ => false
  end.

(** A dictionary with string keys, in insertion order. *)
Definition dict (V : Type) : Type := list (string * V).

Definition dict_keys {V : Type} (d : dict V) : list string := map fst d.

(** [d[k]], [None] standing for the [KeyError]. *)
Fixpoint dict_get {V : Type} (d : dict V) (k : string) : option V :=
  match d with
  | [] => None
  | (k', v) :: d' => if String.eqb k' k then Some v else dict_get d' k
  end.

(** A real dictionary never holds a key twice. *)
Definition wf_dict {V : Type} (d : dict V) : Prop := NoDup (dict_keys d).

(** The object bound to a node name: both fields are optional.  The
    loader hands the core a well-formed graph: every value of the graph
    is an object, and an [edges] field that is present is a mapping from
    names to finite numbers; other shapes have no value here. *)
Record descriptor : Type := mkDescriptor {
  d_start : option json;
  d_edges : option (dict Q)
}.

Definition workflow : Type := dict descriptor.

(** [val.get("start", False)] *)
Definition get_start (val : descriptor) : json :=
  match d_start val with
  | Some v => v
  | None => JBool false
  end.

(** [val.get("edges", {})] *)
Definition get_edges (val : descriptor) : dict Q :=
  match d_edges val with
  | Some e => e
  | None => []
  end.

Definition wf_workflow (w : workflow) : Prop :=
  wf_dict w /\ forall k val, In (k, val) w -> wf_dict (get_edges val).

(** ** Exceptions and results *)

(** The texts of the [TypeError]s that [validate_spec] raises. *)
Inductive message : Type :=
| invalid_workflow_spec
| no_start_nodes_found
| more_than_one_start_node_found (start_nodes : list string)
| cycle_found.

Inductive exn : Type :=
| TypeError (m : message)
| KeyError (k : string)
| IndexError.

Inductive outcome (A : Type) : Type :=
| Ok (a : A)
| Raise (e : exn)
| OutOfFuel.

Arguments Ok {A} a.
Arguments Raise {A} e.
Arguments OutOfFuel {A}.

(** ** The validator *)

Fixpoint get_start_nodes (w : workflow) : list string :=
  match w with
  | [] => []
  | (key, val) :: w' =>
      if is_True (get_start val)
      then key :: get_start_nodes w'
      else get_start_nodes w'
  end.

(** [node in visited_nodes] *)
Definition mem (node : string) (visited_nodes : list string) : bool :=
  existsb (String.eqb node) visited_nodes.

(** [any(rec(n, visited_nodes) for n in ns)]: the generator is consumed
    up to the first [True]; every call works on the one shared list. *)
Fixpoint any_cyclical
    (rec : string -> list string -> outcome (bool * list string))
    (ns : list string) (visited_nodes : list string)
    : outcome (bool * list string) :=
  match ns with
  | [] => Ok (false, visited_nodes)
  | n :: ns' =>
      match rec n visited_nodes with
      | Ok (true, visited_nodes') => Ok (true, visited_nodes')
      | Ok (false, visited_nodes') => any_cyclical rec ns' visited_nodes'
      | Raise e => Raise e
      | OutOfFuel => OutOfFuel
      end
  end.

(** [is_cyclical].  The list [visited_nodes] is one Python object shared by
    all the recursive calls: a call appends to it and nothing is ever
    removed, so the list is threaded through the calls and returned. *)
Fixpoint is_cyclical (fuel : nat) (w : workflow) (node : string)
    (visited_nodes : list string) : outcome (bool * list string) :=
  match fuel with
  | O => OutOfFuel
  | S fuel' =>
      if mem node visited_nodes then Ok (true, visited_nodes)
      else
        let visited_nodes := visited_nodes ++ [node] in
        match dict_get w node with
        | None => Raise (KeyError node)
        | Some val =>
            match dict_keys (get_edges val) with
            | [] => Ok (false, visited_nodes)
            | targets => any_cyclical (is_cyclical fuel' w) targets visited_nodes
            end
        end
  end.

(** The keys of the graph that the shared list does not hold yet. *)
Definition unvisited (w : workflow) (v : list string) : nat :=
  length (filter (fun k => negb (mem k v)) (dict_keys w)).

(** The call stack of [is_cyclical] is never deeper than the number of
    keys of the graph plus one (theorem [is_cyclical_total]). *)
Definition enough_fuel (w : workflow) : nat := S (length w).

(** [validate_spec], from the point where the file has been read:
    [None] is a text that [json.loads] rejects. *)
Definition validate_spec (parsed : option workflow) : outcome unit :=
  match parsed with
  | None => Raise (TypeError invalid_workflow_spec)
  | Some w =>
      let start_nodes := get_start_nodes w in
      match start_nodes with
      | [] => Raise (TypeError no_start_nodes_found)
      | start :: rest =>
          if 1 <? length start_nodes
          then Raise (TypeError (more_than_one_start_node_found start_nodes))
          else
            match is_cyclical (enough_fuel w) w start [] with
            | Ok (true, _) => Raise (TypeError cycle_found)
            | Ok (false, _) => Ok tt
            | Raise e => Raise e
            | OutOfFuel => OutOfFuel
            end
      end
  end.

(** ** The runtime tree and its builder *)

(** [Edge = namedtuple("Edge", ["node", "time"])] *)
Record Edge_of (N : Type) : Type := mkEdge {
  node : N;
  time : Q
}.

Arguments mkEdge {N} node time.
Arguments node {N} e.
Arguments time {N} e.

(** [Node = namedtuple("Node", ["name", "edges"])] *)
Inductive Node : Type :=
| mkNode (name : string) (edges : list (Edge_of Node)).

Abbreviation Edge := (Edge_of Node).

Definition name (n : Node) : string :=
  match n with mkNode nm _ => nm end.

Definition edges (n : Node) : list Edge :=
  match n with mkNode _ es => es end.

(** [[Edge(node=rec(n), time=edges[n]) for n in ns]]: for each key the
    subtree is built first, then the delay [edges[n]] is read. *)
Fixpoint comprehension (rec : string -> outcome Node) (edges : dict Q)
    (ns : list string) : outcome (list Edge) :=
  match ns with
  | [] => Ok []
  | n :: ns' =>
      match rec n with
      | Ok child =>
          match dict_get edges n with
          | None => Raise (KeyError n)
          | Some t =>
              match comprehension rec edges ns' with
              | Ok es => Ok (mkEdge child t :: es)
              | Raise e => Raise e
              | OutOfFuel => OutOfFuel
              end
          end
      | Raise e => Raise e
      | OutOfFuel => OutOfFuel
      end
  end.

(** [build_dag]: the comprehension walks the keys of the node's edge
    mapping in insertion order. *)
Fixpoint build_dag (fuel : nat) (w : workflow) (node_name : string)
    : outcome Node :=
  match fuel with
  | O => OutOfFuel
  | S fuel' =>
      match dict_get w node_name with
      | None => Raise (KeyError node_name)
      | Some val =>
          let edges := get_edges val in
          match comprehension (build_dag fuel' w) edges (dict_keys edges) with
          | Ok es => Ok (mkNode node_name es)
          | Raise e => Raise e
          | OutOfFuel => OutOfFuel
          end
      end
  end.

(** [parse_spec], from the point where the file has been read and parsed:
    [get_start_nodes(workflow)[0]], then [build_dag]. *)
Definition parse_spec (fuel : nat) (w : workflow) : outcome Node :=
  match get_start_nodes w with
  | [] => Raise IndexError
  | start_node :: _ => build_dag fuel w start_node
  end.

(** The cycle check [c] and the builder [b] end alike: both return, or
    both raise the same exception. *)
Definition agrees (c : outcome (bool * list string)) (b : outcome Node)
    : Prop :=
  match c with
  | Ok (false, _) => exists t, b = Ok t
  | Raise e => b = Raise e
  | _ => True
  end.

(** ** The cycle check as the specification words it

    [walk(node, pathSoFar)]: a cycle exists when [node] is already on
    [pathSoFar]; otherwise every edge target is walked with
    [pathSoFar + [node]], a fresh list for each branch. *)
Fixpoint any_walk (rec : string -> outcome bool) (ns : list string)
    : outcome bool :=
  match ns with
  | [] => Ok false
  | n :: ns' =>
      match rec n with
      | Ok true => Ok true
      | Ok false => any_walk rec ns'
      | Raise e => Raise e
      | OutOfFuel => OutOfFuel
      end
  end.

Fixpoint walk (fuel : nat) (w : workflow) (node : string)
    (pathSoFar : list string) : outcome bool :=
  match fuel with
  | O => OutOfFuel
  | S fuel' =>
      if mem node pathSoFar then Ok true
      else
        match dict_get w node with
        | None => Raise (KeyError node)
        | Some val =>
            any_walk (fun n => walk fuel' w n (pathSoFar ++ [node]))
                     (dict_keys (get_edges val))
        end
  end.

(** ** Reachability in the raw graph *)

(** [edge_of w a b]: the node [a] of [w] declares an edge to [b]. *)
Definition edge_of (w : workflow) (a b : string) : Prop :=
  exists val, dict_get w a = Some val /\ In b (dict_keys (get_edges val)).

(** [graph_path w a p b]: following the names [p] one after the other from
    [a] along declared edges ends in [b]. *)
Fixpoint graph_path (w : workflow) (a : string) (p : list string)
    (b : string) : Prop :=
  match p with
  | [] => a = b
  | n :: p' => edge_of w a n /\ graph_path w n p' b
  end.

(** An edge whose target is no key of the graph. *)
Definition dangling_edge (w : workflow) (a b : string) : Prop :=
  edge_of w a b /\ dict_get w b = None.

(** ** Positions in the runtime tree

    [build_dag] repeats a node once per path that reaches it, so a name
    does not identify a [Node] of the tree.  A position does: the list of
    the indices of the edges taken from the root. *)
Definition position : Type := list nat.

Fixpoint indexed_from {A : Type} (i : nat) (l : list A) : list (nat * A) :=
  match l with
  | [] => []
  | a :: l' => (i, a) :: indexed_from (S i) l'
  end.

(** [enumerate(l)] *)
Definition indexed {A : Type} (l : list A) : list (nat * A) :=
  indexed_from 0 l.

Fixpoint subtree (n : Node) (pos : position) : option Node :=
  match pos with
  | [] => Some n
  | i :: pos' =>
      match nth_error (edges n) i with
      | Some e => subtree (node e) pos'
      | None => None
      end
  end.

(** The names met from the root down to a position, the root's excluded. *)
Fixpoint names_along (n : Node) (pos : position) : option (list string) :=
  match pos with
  | [] => Some []
  | i :: pos' =>
      match nth_error (edges n) i with
      | Some e =>
          match names_along (node e) pos' with
          | Some p => Some (name (node e) :: p)
          | None => None
          end
      | None => None
      end
  end.

(** The sum of the edge delays from the root down to a position. *)
Fixpoint path_delay (n : Node) (pos : position) : option Q :=
  match pos with
  | [] => Some 0%Q
  | i :: pos' =>
      match nth_error (edges n) i with
      | Some e =>
          match path_delay (node e) pos' with
          | Some d => Some (time e + d)%Q
          | None => None
          end
      | None => None
      end
  end.

(** All the nodes of the tree below a position, in preorder, each with its
    position and its name. *)
Fixpoint tasks_of (pos : position) (n : Node) : list (position * string) :=
  match n with
  | mkNode nm es =>
      (pos, nm) ::
      (fix below (i : nat) (es : list Edge) : list (position * string) :=
         match es with
         | [] => []
         | e :: es' => tasks_of (pos ++ [i]) (node e) ++ below (S i) es'
         end) 0 es
  end.

Definition node_count (n : Node) : nat := length (tasks_of [] n).

(** Every delay of the tree is at least zero. *)
Fixpoint nonneg_delays (n : Node) : bool :=
  match n with
  | mkNode _ es =>
      (fix all (es : list Edge) : bool :=
         match es with
         | [] => true
         | e :: es' => Qle_bool 0 (time e) && nonneg_delays (node e) && all es'
         end) es
  end.

(** ** The traversal on an event loop

    [run_workflow] and [run_workflow_after] run on the asyncio event loop.
    The loop is modelled with an exact clock: running code takes no time,
    and [asyncio.sleep(d)] resumes its task exactly [d] seconds after the
    call (at once, in the order of the run queue, when [d <= 0]). *)

(** A task made by [asyncio.create_task(run_workflow_after(delay, node,
    ...))] that has not run yet. *)
Record task : Type := mkTask {
  t_pos : position;
  t_delay : Q;
  t_node : Node
}.

(** A task suspended in [asyncio.sleep], with the time at which it
    resumes. *)
Record sleeper : Type := mkSleeper {
  s_wake : Q;
  s_pos : position;
  s_node : Node
}.

(** What one visit emits: the node's name and the time of the visit.  The
    position tells the instances of a repeated name apart; it is not
    printed. *)
Record observation : Type := mkObservation {
  o_time : Q;
  o_pos : position;
  o_name : string
}.

Record loop_state : Type := mkLoop {
  clock : Q;
  ready : list task;
  sleeping : list sleeper;
  out : list observation
}.

(** The tasks that [run_workflow] creates, one per edge, in the order of
    [node.edges]. *)
Definition spawn (pos : position) (n : Node) : list task :=
  map (fun ie => mkTask (pos ++ [fst ie]) (time (snd ie)) (node (snd ie)))
      (indexed (edges n)).

(** The body of [run_workflow] up to its [await]: the observation is
    emitted, then the child tasks are created and queued. *)
Definition visit (s : loop_state) (pos : position) (n : Node) : loop_state :=
  mkLoop (clock s)
         (ready s ++ spawn pos n)
         (sleeping s)
         (out s ++ [mkObservation (clock s) pos (name n)]).

(** When [asyncio.sleep(delay)] resumes, called at time [now]. *)
Definition wake_time (now delay : Q) : Q :=
  if Qle_bool delay 0 then now else (now + delay)%Q.

(** The first run of [run_workflow_after]: the task goes to sleep. *)
Definition suspend (now : Q) (t : task) : sleeper :=
  mkSleeper (wake_time now (t_delay t)) (t_pos t) (t_node t).

(** [asyncio.run(run_workflow(head_node))]: the main coroutine runs at
    once, at time zero. *)
Definition start_loop (root : Node) : loop_state :=
  visit (mkLoop 0%Q [] [] []) [] root.

(** One turn of the loop.  A queued task runs first.  Only when the run
    queue is empty does the clock advance, to the earliest wake-up time; a
    sleeper due at that time resumes and visits its node.  Which of
    several sleepers due at the same time resumes first is left open. *)
Inductive step : loop_state -> loop_state -> Prop :=
| step_start : forall now t rd sl o,
    step (mkLoop now (t :: rd) sl o)
         (mkLoop now rd (sl ++ [suspend now t]) o)
| step_wake : forall now sl1 x sl2 o,
    (forall y, In y (sl1 ++ x :: sl2) -> (s_wake x <= s_wake y)%Q) ->
    step (mkLoop now [] (sl1 ++ x :: sl2) o)
         (visit (mkLoop (s_wake x) [] (sl1 ++ sl2) o) (s_pos x) (s_node x)).

(** The states a traversal of [root] can be in. *)
Inductive reachable (root : Node) : loop_state -> Prop :=
| reach_start : reachable root (start_loop root)
| reach_step : forall s s', reachable root s -> step s s' -> reachable root s'.

Definition position_eqb (p q : position) : bool :=
  if list_eq_dec Nat.eq_dec p q then true else false.

Definition visited (o : list observation) (pos : position) : bool :=
  existsb (fun ob => position_eqb (o_pos ob) pos) o.

(** [await asyncio.gather] on the child tasks: the visit of a node is done when the
    node has been visited and the task of every edge is done. *)
Fixpoint done (o : list observation) (pos : position) (n : Node) : bool :=
  match n with
  | mkNode _ es =>
      visited o pos &&
      (fix gather (i : nat) (es : list Edge) : bool :=
         match es with
         | [] => true
         | e :: es' => done o (pos ++ [i]) (node e) && gather (S i) es'
         end) 0 es
  end.

(** The loop with a fixed choice among the sleepers due at the same time:
    the one that went to sleep first. *)
Fixpoint earliest (sl : list sleeper) : option (sleeper * list sleeper) :=
  match sl with
  | [] => None
  | x :: sl' =>
      match earliest sl' with
      | None => Some (x, [])
      | Some (y, rest) =>
          if Qle_bool (s_wake x) (s_wake y)
          then Some (x, sl')
          else Some (y, x :: rest)
      end
  end.

Definition run_once (s : loop_state) : option loop_state :=
  match ready s with
  | t :: rd =>
      Some (mkLoop (clock s) rd (sleeping s ++ [suspend (clock s) t]) (out s))
  | [] =>
      match earliest (sleeping s) with
      | Some (x, rest) =>
          Some (visit (mkLoop (s_wake x) [] rest (out s)) (s_pos x) (s_node x))
      | None => None
      end
  end.

(** [loop.run_until_complete]: the loop turns until the main coroutine is
    done.  [None] is a loop with nothing left to run and the main
    coroutine not done. *)
Fixpoint run_until_complete (fuel : nat) (root : Node) (s : loop_state)
    : option (outcome loop_state) :=
  if done (out s) [] root then Some (Ok s)
  else
    match fuel with
    | O => Some OutOfFuel
    | S fuel' =>
        match run_once s with
        | Some s' => run_until_complete fuel' root s'
        | None => None
        end
    end.

(** [asyncio.run(run_workflow(root))]; the loop turns twice per node
    besides the root. *)
Definition run_workflow (root : Node) : option (outcome loop_state) :=
  run_until_complete (2 * node_count root) root (start_loop root).

(** The lines printed without [--with-timestamps]. *)
Definition printed (s : loop_state) : list string := map o_name (out s).

(** The position and name of an observation. *)
Definition observed (ob : observation) : position * string :=
  (o_pos ob, o_name ob).

Definition pending_task (t : task) : list (position * string) :=
  tasks_of (t_pos t) (t_node t).

Definition pending_sleeper (x : sleeper) : list (position * string) :=
  tasks_of (s_pos x) (s_node x).

(** ** Checking that a parsed graph is made of dictionaries *)

Fixpoint nodupb (l : list string) : bool :=
  match l with
  | [] => true
  | a :: l' => negb (mem a l') && nodupb l'
  end.

Definition wf_workflowb (w : workflow) : bool :=
  nodupb (dict_keys w) &&
  forallb (fun kv => nodupb (dict_keys (get_edges (snd kv)))) w.

(** ** The graphs of the test suite, and some more *)

Definition SIMPLE : workflow :=
  [("A", mkDescriptor (Some (JBool true)) (Some [("B", 0.5%Q); ("C", 0.7%Q)]));
   ("B", mkDescriptor None (Some []));
   ("C", mkDescriptor None (Some []))].

Definition TRIVIAL : workflow :=
  [("A", mkDescriptor (Some (JBool true)) (Some []))].

Definition INTERLEAVED : workflow :=
  [("A", mkDescriptor (Some (JBool true)) (Some [("B", 0.4%Q); ("C", 0.7%Q)]));
   ("B", mkDescriptor None (Some [("D", 0.1%Q)]));
   ("C", mkDescriptor None (Some []));
   ("D", mkDescriptor None (Some []))].

Definition TWO_STARTS : workflow :=
  [("A", mkDescriptor (Some (JBool true)) (Some [("B", 0.1%Q)]));
   ("B", mkDescriptor (Some (JBool true)) None)].

Definition NO_STARTS : workflow :=
  [("A", mkDescriptor None (Some [("B", 0.1%Q)]));
   ("B", mkDescriptor None None)].

Definition CYCLICAL : workflow :=
  [("A", mkDescriptor (Some (JBool true)) (Some [("B", 0.1%Q)]));
   ("B", mkDescriptor None (Some [("A", 0.1%Q)]))].

(** A graph without a cycle in which [D] has the two parents [B] and
    [C]. *)
Definition DIAMOND : workflow :=
  [("A", mkDescriptor (Some (JBool true)) (Some [("B", 1%Q); ("C", 2%Q)]));
   ("B", mkDescriptor None (Some [("D", 1%Q)]));
   ("C", mkDescriptor None (Some [("D", 1%Q)]));
   ("D", mkDescriptor None (Some []))].

(** A graph without a cycle in which [C] is reached from [A] directly
    and through [B]. *)
Definition SHORTCUT : workflow :=
  [("A", mkDescriptor (Some (JBool true)) (Some [("B", 1%Q); ("C", 3%Q)]));
   ("B", mkDescriptor None (Some [("C", 1%Q)]));
   ("C", mkDescriptor None None)].

(** The edge of [A] names a node that the graph does not have. *)
Definition DANGLING : workflow :=
  [("A", mkDescriptor (Some (JBool true)) (Some [("B", 0.5%Q)]))].

(** The only start markings are the number [1] and a non-empty string. *)
Definition TRUTHY_STARTS : workflow :=
  [("A", mkDescriptor (Some (JNum 1%Q)) (Some [("B", 0.5%Q)]));
   ("B", mkDescriptor (Some (JStr "yes")) None)].

(** The trees that the test suite hands to [run_workflow]. *)
Definition simple_dag : Node :=
  mkNode "A" [mkEdge (mkNode "B" []) 0.5%Q; mkEdge (mkNode "C" []) 0.7%Q].

Definition interleaved_dag : Node :=
  mkNode "A"
    [mkEdge (mkNode "B" [mkEdge (mkNode "D" []) 0.1%Q]) 0.4%Q;
     mkEdge (mkNode "C" []) 0.7%Q].

Definition diamond_dag : Node :=
  mkNode "A"
    [mkEdge (mkNode "B" [mkEdge (mkNode "D" []) 1%Q]) 1%Q;
     mkEdge (mkNode "C" [mkEdge (mkNode "D" []) 1%Q]) 2%Q].

(** ** Induction on runtime trees and the measures of the loop *)

(** Induction on a tree with the hypothesis for every edge of the
    node. *)
Fixpoint Node_forall_ind (P : Node -> Prop)
    (H : forall nm es, Forall (fun e => P (node e)) es -> P (mkNode nm es))
    (n : Node) : P n :=
  match n with
  | mkNode nm es =>
      H nm es
        ((fix all (es : list Edge) : Forall (fun e => P (node e)) es :=
            match es with
            | [] => Forall_nil _
            | e :: es' => Forall_cons e (Node_forall_ind P H (node e)) (all es')
            end) es)
  end.

(** The turns the loop still has to make: two per node of a task that
    has not run yet, one less for the task once it sleeps. *)
Definition weight (s : loop_state) : nat :=
  2 * length (flat_map pending_task (ready s)) +
  list_sum (map (fun x => 2 * length (pending_sleeper x) - 1) (sleeping s)).

(** Nothing left to run. *)
Definition quiescent (s : loop_state) : Prop :=
  ready s = [] /\ sleeping s = [].

(** Every node is visited or waits below exactly one pending task. *)
Definition accounted (root : Node) (s : loop_state) : Prop :=
  Permutation (tasks_of [] root)
    (map observed (out s) ++
     flat_map pending_task (ready s) ++
     flat_map pending_sleeper (sleeping s)).

(** A task exists only once the node above it has been visited, and the
    observations come in that order. *)
Definition causal (s : loop_state) : Prop :=
  (forall l1 ob l2 p i,
     out s = l1 ++ ob :: l2 -> o_pos ob = p ++ [i] ->
     exists ob', In ob' l1 /\ o_pos ob' = p) /\
  (forall t, In t (ready s) ->
     exists p i ob, t_pos t = p ++ [i] /\ In ob (out s) /\ o_pos ob = p) /\
  (forall x, In x (sleeping s) ->
     exists p i ob, s_pos x = p ++ [i] /\ In ob (out s) /\ o_pos ob = p).

(** Every observation carries the sum of the delays above its node,
    every sleeper wakes at that sum, and every queued task was created
    at the time of its parent's visit. *)
Definition timed (root : Node) (s : loop_state) : Prop :=
  (forall ob, In ob (out s) ->
     exists n d,
       subtree root (o_pos ob) = Some n /\ o_name ob = name n /\
       path_delay root (o_pos ob) = Some d /\ (o_time ob == d)%Q) /\
  (forall t, In t (ready s) ->
     exists p i n e d,
       t_pos t = p ++ [i] /\ subtree root p = Some n /\
       nth_error (edges n) i = Some e /\
       t_node t = node e /\ t_delay t = time e /\
       path_delay root p = Some d /\ (clock s == d)%Q) /\
  (forall x, In x (sleeping s) ->
     exists d,
       subtree root (s_pos x) = Some (s_node x) /\
       path_delay root (s_pos x) = Some d /\ (s_wake x == d)%Q).

(** The states in which the runs of the test suite's trees end. *)
Definition final_state (root : Node) : loop_state :=
  match run_workflow root with
  | Some (Ok s) => s
  | _ => start_loop root
  end.

(** ** The whole program and the notions its properties speak of *)

(** The start-marked keys, read as a filter over the items of the
    graph. *)
Definition start_marked (w : workflow) : list string :=
  map fst (filter (fun kv => is_True (get_start (snd kv))) w).

(** Going [k] times round the closed path [q]. *)
Fixpoint laps (q : list string) (k : nat) : list string :=
  match k with
  | O => []
  | S k' => q ++ laps q k'
  end.

(** The names of a tree in preorder. *)
Definition preorder (n : Node) : list string := map snd (tasks_of [] n).

(** [validate_spec] on an interpreter that allows [fuel] nested calls
    of [is_cyclical]: [OutOfFuel] is the [RecursionError] of a stack
    that is not deep enough.  [validate_spec] is the case of a stack
    deeper than the graph has keys. *)
Definition validate_spec_within (fuel : nat) (parsed : option workflow)
    : outcome unit :=
  match parsed with
  | None => Raise (TypeError invalid_workflow_spec)
  | Some w =>
      let start_nodes := get_start_nodes w in
      match start_nodes with
      | [] => Raise (TypeError no_start_nodes_found)
      | start :: rest =>
          if 1 <? length start_nodes
          then Raise (TypeError (more_than_one_start_node_found start_nodes))
          else
            match is_cyclical fuel w start [] with
            | Ok (true, _) => Raise (TypeError cycle_found)
            | Ok (false, _) => Ok tt
            | Raise e => Raise e
            | OutOfFuel => OutOfFuel
            end
      end
  end.


(** No path from [root] comes back to a name it has passed. *)
Definition acyclic_from (w : workflow) (root : string) : Prop :=
  forall q c, graph_path w root q c -> NoDup (root :: q).

(** Every name that [root] reaches is a key of the graph. *)
Definition closed_from (w : workflow) (root : string) : Prop :=
  forall q c, graph_path w root q c -> dict_get w c <> None.

(** Where the task of an edge is once the node above it has been
    visited at time [t]: queued, the clock still at [t]; asleep until
    [t] plus the delay of the edge; or run, its node observed at that
    time. *)
Definition child_scheduled (s : loop_state) (t : Q) (pos : position)
    (e : Edge_of Node) : Prop :=
  (exists tk,
     In tk (ready s) /\ t_pos tk = pos /\ t_delay tk = time e /\
     t_node tk = node e /\ (clock s == t)%Q) \/
  (exists x,
     In x (sleeping s) /\ s_pos x = pos /\ s_node x = node e /\
     (s_wake x == t + time e)%Q) \/
  (exists ob,
     In ob (out s) /\ o_pos ob = pos /\ o_name ob = name (node e) /\
     (o_time ob == t + time e)%Q).

(** Every edge of every visited node has its task. *)
Definition scheduled (root : Node) (s : loop_state) : Prop :=
  forall obp n i e,
    In obp (out s) ->
    subtree root (o_pos obp) = Some n -> nth_error (edges n) i = Some e ->
    child_scheduled s (o_time obp) (o_pos obp ++ [i]) e.

(** The times of the observations never decrease along the output. *)
Fixpoint in_time_order (o : list observation) : Prop :=
  match o with
  | [] => True
  | ob :: o' =>
      (forall ob', In ob' o' -> (o_time ob <= o_time ob')%Q) /\
      in_time_order o'
  end.

(** The clock never runs backwards: what has been observed lies in the
    past, what sleeps wakes in the future. *)
Definition clocked (s : loop_state) : Prop :=
  in_time_order (out s) /\
  (forall ob, In ob (out s) -> (o_time ob <= clock s)%Q) /\
  (forall x, In x (sleeping s) -> (clock s <= s_wake x)%Q).

(** [A] is marked with [True], [B] with the number [1]. *)
Definition MIXED : workflow :=
  [("A", mkDescriptor (Some (JBool true)) (Some [("B", 0.5%Q)]));
   ("B", mkDescriptor (Some (JNum 1%Q)) None)].

(** The edge of [X] names a node that the graph does not have; the
    start node does not reach [X]. *)
Definition UNSEEN_DANGLING : workflow :=
  INTERLEAVED ++ [("X", mkDescriptor None (Some [("Z", 1%Q)]))].

(** A graph with a part that the start node does not reach: [X] and
    [Y] point at each other. *)
Definition ISLAND : workflow :=
  INTERLEAVED ++
  [("X", mkDescriptor None (Some [("Y", 1%Q)]));
   ("Y", mkDescriptor None (Some [("X", 1%Q)]))].

(** * Properties *)

(** ** Dictionaries and membership *)

Lemma mem_true_iff (n : string) (v : list string) :
  mem n v = true <-> In n v.
Proof.
  unfold mem. rewrite existsb_exists. split.
  - intros [x [Hin Heq]]. apply String.eqb_eq in Heq. now subst.
  - intros Hin. exists n. split; [assumption | apply String.eqb_refl].
Qed.

Lemma mem_false_iff (n : string) (v : list string) :
  mem n v = false <-> ~ In n v.
Proof.
  rewrite <- mem_true_iff. destruct (mem n v); split; congruence.
Qed.

Lemma dict_get_Some_In {V : Type} (d : dict V) (k : string) (v : V) :
  dict_get d k = Some v -> In (k, v) d.
Proof.
  induction d as [|[k' v'] d IH]; simpl; [discriminate|].
  destruct (String.eqb k' k) eqn:E.
  - apply String.eqb_eq in E. intros [= ->]. subst. now left.
  - intros H. right. now apply IH.
Qed.

Lemma dict_get_Some_key {V : Type} (d : dict V) (k : string) (v : V) :
  dict_get d k = Some v -> In k (dict_keys d).
Proof.
  intros H. apply dict_get_Some_In in H.
  unfold dict_keys. change k with (fst (k, v)). now apply in_map.
Qed.

Lemma dict_get_key {V : Type} (d : dict V) (k : string) :
  In k (dict_keys d) -> exists v, dict_get d k = Some v.
Proof.
  induction d as [|[k' v'] d IH]; simpl; [contradiction|].
  intros [-> | Hin].
  - rewrite String.eqb_refl. eauto.
  - destruct (String.eqb k' k); eauto.
Qed.

Lemma dict_get_None_key {V : Type} (d : dict V) (k : string) :
  dict_get d k = None -> ~ In k (dict_keys d).
Proof.
  intros Hnone Hin. apply dict_get_key in Hin as [v Hv]. congruence.
Qed.

(** In a dictionary, reading the keys one by one gives back the items. *)
Lemma wf_dict_items {V : Type} (d : dict V) :
  wf_dict d ->
  forall k v, In (k, v) d -> dict_get d k = Some v.
Proof.
  unfold wf_dict, dict_keys.
  induction d as [|[k' v'] d IH]; simpl; intros Hnd k v Hin; [contradiction|].
  inversion Hnd as [|? ? Hnotin Hnd']; subst.
  destruct Hin as [[= -> ->] | Hin].
  - now rewrite String.eqb_refl.
  - destruct (String.eqb k' k) eqn:E.
    + apply String.eqb_eq in E. subst. exfalso. apply Hnotin.
      change k with (fst (k, v)). now apply in_map.
    + now apply IH.
Qed.

(** ** The start-node scan *)

Lemma is_True_iff (v : json) : is_True v = true <-> v = JBool true.
Proof.
  destruct v as [|[]| | | |]; simpl; split; congruence.
Qed.

Lemma get_start_nodes_In (w : workflow) (k : string) :
  In k (get_start_nodes w) <->
  exists val, In (k, val) w /\ get_start val = JBool true.
Proof.
  induction w as [|[key val] w IH]; simpl.
  - split; [contradiction | intros [? [[] _]]].
  - destruct (is_True (get_start val)) eqn:E.
    + apply is_True_iff in E. simpl. rewrite IH. split.
      * intros [-> | [val' [Hin Hs]]]; eauto.
      * intros [val' [[[= -> ->] | Hin] Hs]]; eauto.
    + rewrite IH. split.
      * intros [val' [Hin Hs]]; eauto.
      * intros [val' [[[= -> ->] | Hin] Hs]]; eauto.
        apply is_True_iff in Hs. congruence.
Qed.

Lemma validate_spec_no_start (w : workflow) :
  get_start_nodes w = [] ->
  validate_spec (Some w) = Raise (TypeError no_start_nodes_found).
Proof.
  intros H. unfold validate_spec. now rewrite H.
Qed.

Lemma validate_spec_multiple_starts (w : workflow) :
  2 <= length (get_start_nodes w) ->
  validate_spec (Some w) =
  Raise (TypeError (more_than_one_start_node_found (get_start_nodes w))).
Proof.
  intros H. unfold validate_spec.
  destruct (get_start_nodes w) as [|a l] eqn:E; [simpl in H; lia|].
  destruct (1 <? length (a :: l)) eqn:E'; [reflexivity|].
  apply Nat.ltb_ge in E'. lia.
Qed.

Lemma validate_spec_single_start (w : workflow) (start : string) :
  get_start_nodes w = [start] ->
  validate_spec (Some w) =
  match is_cyclical (enough_fuel w) w start [] with
  | Ok (true, _) => Raise (TypeError cycle_found)
  | Ok (false, _) => Ok tt
  | Raise e => Raise e
  | OutOfFuel => OutOfFuel
  end.
Proof.
  intros H. unfold validate_spec. now rewrite H.
Qed.

Lemma validate_spec_Ok_inv (w : workflow) :
  validate_spec (Some w) = Ok tt ->
  exists start v,
    get_start_nodes w = [start] /\
    is_cyclical (enough_fuel w) w start [] = Ok (false, v).
Proof.
  unfold validate_spec.
  destruct (get_start_nodes w) as [|a l] eqn:E; [discriminate|].
  destruct (1 <? length (a :: l)) eqn:E'; [discriminate|].
  apply Nat.ltb_ge in E'. destruct l; [|simpl in E'; lia].
  destruct (is_cyclical (enough_fuel w) w a []) as [[[] v]| |] eqn:Hc;
    try discriminate.
  intros _. now exists a, v.
Qed.

(** ** The cycle check terminates *)

Lemma is_cyclical_S (fuel : nat) (w : workflow) (n : string)
    (v : list string) :
  is_cyclical (S fuel) w n v =
  if mem n v then Ok (true, v)
  else
    match dict_get w n with
    | None => Raise (KeyError n)
    | Some val =>
        any_cyclical (is_cyclical fuel w) (dict_keys (get_edges val))
                     (v ++ [n])
    end.
Proof.
  simpl. destruct (mem n v); [reflexivity|].
  destruct (dict_get w n) as [val|]; [|reflexivity].
  destruct (dict_keys (get_edges val)); reflexivity.
Qed.

Lemma any_cyclical_grows
    (rec : string -> list string -> outcome (bool * list string)) :
  (forall n v b v', rec n v = Ok (b, v') -> incl v v') ->
  forall ns v b v', any_cyclical rec ns v = Ok (b, v') -> incl v v'.
Proof.
  intros Hrec. induction ns as [|n ns IH]; simpl; intros v b v' H.
  - injection H as _ <-. apply incl_refl.
  - destruct (rec n v) as [[[] v1]| |] eqn:E; try discriminate.
    + injection H as _ <-. eapply Hrec; eauto.
    + eapply incl_tran; [eapply Hrec; eauto | eapply IH; eauto].
Qed.

Lemma is_cyclical_grows (w : workflow) :
  forall fuel n v b v', is_cyclical fuel w n v = Ok (b, v') -> incl v v'.
Proof.
  induction fuel as [|fuel IH]; intros n v b v' H; [discriminate|].
  rewrite is_cyclical_S in H.
  destruct (mem n v); [injection H as _ <-; apply incl_refl|].
  destruct (dict_get w n) as [val|]; [|discriminate].
  apply any_cyclical_grows in H; [|exact (IH)].
  eapply incl_tran; [|exact H]. apply incl_appl, incl_refl.
Qed.

Lemma filter_length_mono {A : Type} (f g : A -> bool) (l : list A) :
  (forall x, In x l -> f x = true -> g x = true) ->
  length (filter f l) <= length (filter g l).
Proof.
  induction l as [|a l IH]; simpl; intros H; [lia|].
  assert (IH' : length (filter f l) <= length (filter g l))
    by (apply IH; intros; apply H; auto).
  destruct (f a) eqn:Ef.
  - rewrite (H a (or_introl eq_refl) Ef). simpl. lia.
  - destruct (g a); simpl; lia.
Qed.

Lemma filter_length_strict {A : Type} (f g : A -> bool) (l : list A) (a : A) :
  (forall x, In x l -> f x = true -> g x = true) ->
  In a l -> f a = false -> g a = true ->
  length (filter f l) < length (filter g l).
Proof.
  induction l as [|b l IH]; simpl; intros H Hin Hf Hg; [contradiction|].
  assert (Hle : length (filter f l) <= length (filter g l))
    by (apply filter_length_mono; intros; apply H; auto).
  destruct Hin as [-> | Hin].
  - rewrite Hf, Hg. simpl. lia.
  - assert (IH' : length (filter f l) < length (filter g l))
      by (apply IH; auto).
    destruct (f b) eqn:Ef.
    + rewrite (H b (or_introl eq_refl) Ef). simpl. lia.
    + destruct (g b); simpl; lia.
Qed.

Lemma unvisited_incl (w : workflow) (v v' : list string) :
  incl v v' -> unvisited w v' <= unvisited w v.
Proof.
  intros Hincl. apply filter_length_mono. intros x _ Hx.
  apply negb_true_iff in Hx. apply negb_true_iff.
  apply mem_false_iff in Hx. apply mem_false_iff. auto.
Qed.

Lemma unvisited_append (w : workflow) (v : list string) (n : string)
    (val : descriptor) :
  dict_get w n = Some val -> mem n v = false ->
  unvisited w (v ++ [n]) < unvisited w v.
Proof.
  intros Hget Hmem. apply filter_length_strict with (a := n).
  - intros x _ Hx. apply negb_true_iff in Hx. apply negb_true_iff.
    apply mem_false_iff in Hx. apply mem_false_iff.
    intros Hin. apply Hx. apply in_or_app. now left.
  - eapply dict_get_Some_key; eauto.
  - apply negb_false_iff. apply mem_true_iff. apply in_or_app.
    right. now left.
  - now rewrite Hmem.
Qed.

Lemma unvisited_le_length (w : workflow) (v : list string) :
  unvisited w v <= length w.
Proof.
  unfold unvisited. etransitivity; [apply filter_length_le|].
  unfold dict_keys. now rewrite length_map.
Qed.

Lemma any_cyclical_total (w : workflow) (fuel : nat) :
  (forall n v, unvisited w v < fuel -> is_cyclical fuel w n v <> OutOfFuel) ->
  forall ns v, unvisited w v < fuel ->
    any_cyclical (is_cyclical fuel w) ns v <> OutOfFuel.
Proof.
  intros Hrec. induction ns as [|n ns IH]; simpl; intros v Hv; [discriminate|].
  destruct (is_cyclical fuel w n v) as [[[] v1]| |] eqn:E; try discriminate.
  - apply IH. apply is_cyclical_grows in E.
    pose proof (unvisited_incl w v v1 E). lia.
  - exfalso. eapply Hrec; eauto.
Qed.

(** With more fuel than there are unvisited keys, [is_cyclical] returns
    or raises. *)
Lemma is_cyclical_total (w : workflow) :
  forall fuel n v, unvisited w v < fuel -> is_cyclical fuel w n v <> OutOfFuel.
Proof.
  induction fuel as [|fuel IH]; intros n v Hv; [lia|].
  rewrite is_cyclical_S.
  destruct (mem n v) eqn:Hm; [discriminate|].
  destruct (dict_get w n) as [val|] eqn:Hg; [|discriminate].
  apply any_cyclical_total; [exact IH|].
  pose proof (unvisited_append w v n val Hg Hm). lia.
Qed.

Lemma validate_spec_total (parsed : option workflow) :
  validate_spec parsed <> OutOfFuel.
Proof.
  destruct parsed as [w|]; [|discriminate].
  unfold validate_spec.
  destruct (get_start_nodes w) as [|a l]; [discriminate|].
  destruct (1 <? length (a :: l)); [discriminate|].
  pose proof (is_cyclical_total w (enough_fuel w) a []) as H.
  destruct (is_cyclical (enough_fuel w) w a []) as [[[] v]| |];
    try discriminate.
  exfalso. apply H; [|reflexivity].
  unfold enough_fuel. pose proof (unvisited_le_length w []). lia.
Qed.

(** ** The builder *)

Lemma build_dag_S (fuel : nat) (w : workflow) (n : string) :
  build_dag (S fuel) w n =
  match dict_get w n with
  | None => Raise (KeyError n)
  | Some val =>
      match comprehension (build_dag fuel w) (get_edges val)
                          (dict_keys (get_edges val)) with
      | Ok es => Ok (mkNode n es)
      | Raise e => Raise e
      | OutOfFuel => OutOfFuel
      end
  end.
Proof. reflexivity. Qed.

(** What a comprehension that succeeded has computed, edge by edge. *)
Lemma comprehension_Ok (rec : string -> outcome Node) (edges : dict Q) :
  forall ns es,
    comprehension rec edges ns = Ok es ->
    Forall2 (fun n e => rec n = Ok (node e) /\ dict_get edges n = Some (time e))
            ns es.
Proof.
  induction ns as [|n ns IH]; simpl; intros es H.
  - injection H as <-. constructor.
  - destruct (rec n) as [child| |] eqn:Er; try discriminate.
    destruct (dict_get edges n) as [t|] eqn:Et; try discriminate.
    destruct (comprehension rec edges ns) as [es'| |] eqn:Ec; try discriminate.
    injection H as <-. constructor; [now split | now apply IH].
Qed.

Lemma comprehension_ext (rec rec' : string -> outcome Node) (edges : dict Q) :
  forall ns r,
    (forall n r', In n ns -> rec n = r' -> r' <> OutOfFuel -> rec' n = r') ->
    comprehension rec edges ns = r -> r <> OutOfFuel ->
    comprehension rec' edges ns = r.
Proof.
  induction ns as [|n ns IH]; simpl; intros r Hrec H Hr; [assumption|].
  destruct (rec n) as [child| |] eqn:Er.
  - rewrite (Hrec n (Ok child) (or_introl eq_refl) Er) by discriminate.
    destruct (dict_get edges n) as [t|]; [|assumption].
    destruct (comprehension rec edges ns) as [es'| |] eqn:Ec.
    + rewrite (IH (Ok es')); auto. discriminate.
    + rewrite (IH (Raise e)); auto. discriminate.
    + congruence.
  - rewrite (Hrec n (Raise e) (or_introl eq_refl) Er) by discriminate.
    assumption.
  - congruence.
Qed.

(** A result obtained with some fuel is obtained with any larger fuel. *)
Lemma build_dag_S_stable (w : workflow) :
  forall fuel n r,
    build_dag fuel w n = r -> r <> OutOfFuel -> build_dag (S fuel) w n = r.
Proof.
  induction fuel as [|fuel IH]; intros n r H Hr; [simpl in H; congruence|].
  rewrite build_dag_S in H. rewrite build_dag_S.
  destruct (dict_get w n) as [val|]; [|assumption].
  destruct (comprehension (build_dag fuel w) (get_edges val)
              (dict_keys (get_edges val))) as [es| |] eqn:Ec.
  - assert (Hc : comprehension (build_dag (S fuel) w) (get_edges val)
                   (dict_keys (get_edges val)) = Ok es).
    { eapply comprehension_ext; [|exact Ec|discriminate].
      intros; now apply IH. }
    now rewrite Hc.
  - assert (Hc : comprehension (build_dag (S fuel) w) (get_edges val)
                   (dict_keys (get_edges val)) = Raise e).
    { eapply comprehension_ext; [|exact Ec|discriminate].
      intros; now apply IH. }
    now rewrite Hc.
  - congruence.
Qed.

Lemma build_dag_stable (w : workflow) (fuel fuel' : nat) (n : string)
    (r : outcome Node) :
  build_dag fuel w n = r -> r <> OutOfFuel -> fuel <= fuel' ->
  build_dag fuel' w n = r.
Proof.
  intros H Hr Hle. induction Hle; [assumption|].
  now apply build_dag_S_stable.
Qed.

Lemma build_dag_fuel_independent (w : workflow) (f1 f2 : nat) (n : string)
    (t1 t2 : Node) :
  build_dag f1 w n = Ok t1 -> build_dag f2 w n = Ok t2 -> t1 = t2.
Proof.
  intros H1 H2.
  apply build_dag_stable with (fuel' := Nat.max f1 f2) in H1;
    [|discriminate|lia].
  apply build_dag_stable with (fuel' := Nat.max f1 f2) in H2;
    [|discriminate|lia].
  congruence.
Qed.

Lemma build_dag_Ok_inv (w : workflow) (fuel : nat) (n : string) (t : Node) :
  build_dag fuel w n = Ok t ->
  exists fuel' val,
    fuel = S fuel' /\
    dict_get w n = Some val /\
    name t = n /\
    Forall2 (fun k e => build_dag fuel' w k = Ok (node e) /\
                        dict_get (get_edges val) k = Some (time e))
            (dict_keys (get_edges val)) (edges t).
Proof.
  destruct fuel as [|fuel]; [discriminate|].
  rewrite build_dag_S.
  destruct (dict_get w n) as [val|]; [|discriminate].
  destruct (comprehension _ _ _) as [es| |] eqn:Ec; try discriminate.
  intros [= <-]. exists fuel, val. repeat split.
  now apply comprehension_Ok.
Qed.

(** The builder raises nothing but the lookup failure of an absent
    name. *)
Lemma comprehension_Raise (rec : string -> outcome Node) (edges : dict Q)
    (P : exn -> Prop) :
  forall ns e,
    (forall n e', In n ns -> rec n = Raise e' -> P e') ->
    incl ns (dict_keys edges) ->
    comprehension rec edges ns = Raise e -> P e.
Proof.
  induction ns as [|n ns IH]; simpl; intros e Hrec Hincl H; [discriminate|].
  destruct (rec n) as [child| |] eqn:Er; try discriminate.
  - destruct (dict_get edges n) as [t|] eqn:Et.
    + destruct (comprehension rec edges ns) as [es'| |] eqn:Ec;
        try discriminate.
      injection H as <-. apply IH.
      * intros m e' Hm. apply Hrec. now right.
      * intros x Hx. apply Hincl. now right.
      * reflexivity.
    + exfalso. apply dict_get_None_key in Et. apply Et, Hincl. now left.
  - injection H as <-. eapply Hrec; eauto.
Qed.

Lemma build_dag_Raise (w : workflow) :
  forall fuel n e,
    build_dag fuel w n = Raise e ->
    exists k, e = KeyError k /\ dict_get w k = None.
Proof.
  induction fuel as [|fuel IH]; intros n e H; [discriminate|].
  rewrite build_dag_S in H.
  destruct (dict_get w n) as [val|] eqn:Hg.
  - destruct (comprehension _ _ _) as [es|e0|] eqn:Ec; try discriminate.
    injection H as ->.
    apply (comprehension_Raise (build_dag fuel w) (get_edges val)
             (fun e => exists k, e = KeyError k /\ dict_get w k = None)
             (dict_keys (get_edges val)) e); [|apply incl_refl|exact Ec].
    intros m e' _ Hm. eapply IH; eauto.
  - injection H as <-. eauto.
Qed.

(** ** The validator and the builder walk the graph alike *)

Lemma any_cyclical_agrees (w : workflow) (fuel : nat) (edges : dict Q) :
  (forall n v, agrees (is_cyclical fuel w n v) (build_dag fuel w n)) ->
  forall ns v,
    incl ns (dict_keys edges) ->
    match any_cyclical (is_cyclical fuel w) ns v with
    | Ok (false, _) =>
        exists es, comprehension (build_dag fuel w) edges ns = Ok es
    | Raise e => comprehension (build_dag fuel w) edges ns = Raise e
    | _ => True
    end.
Proof.
  intros Hrec. induction ns as [|n ns IH]; simpl; intros v Hincl; [eauto|].
  pose proof (Hrec n v) as Hn. unfold agrees in Hn.
  destruct (is_cyclical fuel w n v) as [[[] v1]| |] eqn:E; auto.
  - destruct Hn as [t Ht]. rewrite Ht.
    destruct (dict_get_key edges n) as [d Hd]; [apply Hincl; now left|].
    rewrite Hd.
    assert (Hincl' : incl ns (dict_keys edges))
      by (intros x Hx; apply Hincl; now right).
    specialize (IH v1 Hincl').
    destruct (any_cyclical (is_cyclical fuel w) ns v1) as [[[] v2]| |]; auto.
    + destruct IH as [es Hes]. rewrite Hes. eauto.
    + now rewrite IH.
  - now rewrite Hn.
Qed.

Lemma is_cyclical_agrees (w : workflow) :
  forall fuel n v, agrees (is_cyclical fuel w n v) (build_dag fuel w n).
Proof.
  induction fuel as [|fuel IH]; intros n v; [exact I|].
  rewrite is_cyclical_S, build_dag_S.
  destruct (mem n v); [exact I|].
  destruct (dict_get w n) as [val|]; [|reflexivity].
  pose proof (any_cyclical_agrees w fuel (get_edges val) IH
                (dict_keys (get_edges val)) (v ++ [n]) (incl_refl _)) as H.
  unfold agrees.
  destruct (any_cyclical _ _ _) as [[[] v1]| |]; auto.
  - destruct H as [es ->]. eauto.
  - now rewrite H.
Qed.

(** ** The built tree and the paths of the graph *)

Lemma Forall2_nth_error_r {A B : Type} (R : A -> B -> Prop)
    (l1 : list A) (l2 : list B) :
  Forall2 R l1 l2 ->
  forall i b, nth_error l2 i = Some b ->
    exists a, nth_error l1 i = Some a /\ R a b.
Proof.
  induction 1 as [|a b l1 l2 Hab _ IH]; intros [|i] b' Hi;
    simpl in *; try discriminate.
  - injection Hi as <-. eauto.
  - eauto.
Qed.

Lemma Forall2_nth_error_l {A B : Type} (R : A -> B -> Prop)
    (l1 : list A) (l2 : list B) :
  Forall2 R l1 l2 ->
  forall i a, nth_error l1 i = Some a ->
    exists b, nth_error l2 i = Some b /\ R a b.
Proof.
  induction 1 as [|a b l1 l2 Hab _ IH]; intros [|i] a' Hi;
    simpl in *; try discriminate.
  - injection Hi as <-. eauto.
  - eauto.
Qed.

Lemma graph_path_snoc (w : workflow) :
  forall p a b c,
    graph_path w a p b -> edge_of w b c -> graph_path w a (p ++ [c]) c.
Proof.
  induction p as [|n p IH]; simpl; intros a b c Hp He.
  - subst. now split.
  - destruct Hp as [Hn Hp]. split; [assumption|]. eapply IH; eauto.
Qed.

(** Every node of the built tree is itself the tree built for its name. *)
Lemma build_dag_subtree (w : workflow) :
  forall pos fuel n t t',
    build_dag fuel w n = Ok t -> subtree t pos = Some t' ->
    exists fuel', build_dag fuel' w (name t') = Ok t'.
Proof.
  induction pos as [|i pos IH]; simpl; intros fuel n t t' Hb Hs.
  - injection Hs as <-.
    destruct (build_dag_Ok_inv _ _ _ _ Hb) as (f' & val & _ & _ & Hn & _).
    rewrite Hn. eauto.
  - destruct (build_dag_Ok_inv _ _ _ _ Hb) as (f' & val & _ & _ & _ & HF).
    destruct (nth_error (edges t) i) as [e|] eqn:Ee; [|discriminate].
    destruct (Forall2_nth_error_r _ _ _ HF i e Ee) as (k & _ & Hk & _).
    eapply IH; eauto.
Qed.

(** The names above a node of the built tree are a path of the graph. *)
Lemma build_dag_position_path (w : workflow) :
  forall pos fuel n t t',
    build_dag fuel w n = Ok t -> subtree t pos = Some t' ->
    exists p, names_along t pos = Some p /\ graph_path w n p (name t').
Proof.
  induction pos as [|i pos IH]; simpl; intros fuel n t t' Hb Hs.
  - injection Hs as <-. exists []. split; [reflexivity|]. simpl.
    destruct (build_dag_Ok_inv _ _ _ _ Hb) as (f' & val & _ & _ & Hn & _).
    now rewrite Hn.
  - destruct (build_dag_Ok_inv _ _ _ _ Hb) as (f' & val & _ & Hg & _ & HF).
    destruct (nth_error (edges t) i) as [e|] eqn:Ee; [|discriminate].
    destruct (Forall2_nth_error_r _ _ _ HF i e Ee) as (k & Hi & Hk & _).
    destruct (IH _ _ _ _ Hk Hs) as (p & Hp & Hpath).
    rewrite Hp. exists (name (node e) :: p). split; [reflexivity|].
    destruct (build_dag_Ok_inv _ _ _ _ Hk) as (_ & _ & _ & _ & Hn & _).
    rewrite Hn. simpl. split; [|assumption].
    exists val. split; [assumption|]. eapply nth_error_In; eauto.
Qed.

(** Every path of the graph from the root has its own node in the built
    tree. *)
Lemma build_dag_path_position (w : workflow) :
  forall p fuel n t b,
    build_dag fuel w n = Ok t -> graph_path w n p b ->
    exists pos t',
      names_along t pos = Some p /\ subtree t pos = Some t' /\ name t' = b.
Proof.
  induction p as [|k p IH]; simpl; intros fuel n t b Hb Hp.
  - subst. exists [], t. repeat split.
    destruct (build_dag_Ok_inv _ _ _ _ Hb) as (f' & val & _ & _ & Hn & _).
    assumption.
  - destruct Hp as [[val' [Hg' Hin]] Hp].
    destruct (build_dag_Ok_inv _ _ _ _ Hb) as (f' & val & _ & Hg & _ & HF).
    assert (val' = val) by congruence. subst val'.
    destruct (In_nth_error _ _ Hin) as [i Hi].
    destruct (Forall2_nth_error_l _ _ _ HF i k Hi) as (e & He & Hk & _).
    destruct (IH _ _ _ _ Hk Hp) as (pos & t' & Hnames & Hsub & Hname).
    exists (i :: pos), t'. cbn [names_along subtree]. rewrite He, Hnames, Hsub.
    destruct (build_dag_Ok_inv _ _ _ _ Hk) as (_ & _ & _ & _ & Hn & _).
    rewrite Hn. auto.
Qed.

(** When the builder returns a tree, every name that a path from the
    root reaches is a key of the graph. *)
Lemma build_dag_reaches_keys (w : workflow) (fuel : nat) (n : string)
    (t : Node) (p : list string) (b : string) :
  build_dag fuel w n = Ok t -> graph_path w n p b -> dict_get w b <> None.
Proof.
  intros Hb Hp.
  destruct (build_dag_path_position w p fuel n t b Hb Hp)
    as (pos & t' & _ & Hsub & Hname).
  destruct (build_dag_subtree w pos fuel n t t' Hb Hsub) as [f' Hb'].
  destruct (build_dag_Ok_inv _ _ _ _ Hb') as (_ & val & _ & Hg & _).
  rewrite Hname in Hg. congruence.
Qed.

Lemma build_dag_no_dangling (w : workflow) (fuel : nat) (root : string)
    (t : Node) (p : list string) (a b : string) :
  graph_path w root p a -> dangling_edge w a b ->
  build_dag fuel w root <> Ok t.
Proof.
  intros Hp [He Hnone] Hb.
  eapply build_dag_reaches_keys; [exact Hb| |exact Hnone].
  eapply graph_path_snoc; eauto.
Qed.

(** The edges of a built node are the items of the node's edge mapping,
    in the order of the mapping. *)
Lemma edges_are_items (d : dict Q) :
  wf_dict d ->
  forall d' es,
    incl d' d ->
    Forall2 (fun k e => name (node e) = k /\ dict_get d k = Some (time e))
            (dict_keys d') es ->
    map (fun e => (name (node e), time e)) es = d'.
Proof.
  intros Hwf. induction d' as [|[k v] d' IH]; simpl; intros es Hincl HF.
  - inversion HF. reflexivity.
  - inversion HF as [|? e ? es' [Hn Hg] HF']; subst. simpl.
    rewrite (wf_dict_items d Hwf (name (node e)) v) in Hg
      by (apply Hincl; now left).
    injection Hg as <-. f_equal. apply IH; [|assumption].
    intros x Hx. apply Hincl. now right.
Qed.

Lemma build_dag_edges (w : workflow) (fuel : nat) (n : string) (t : Node) :
  wf_workflow w -> build_dag fuel w n = Ok t ->
  exists val,
    dict_get w n = Some val /\
    map (fun e => (name (node e), time e)) (edges t) = get_edges val.
Proof.
  intros [_ Hwf] Hb.
  destruct (build_dag_Ok_inv _ _ _ _ Hb) as (f' & val & _ & Hg & _ & HF).
  exists val. split; [assumption|].
  apply edges_are_items with (d := get_edges val).
  - eapply Hwf. eapply dict_get_Some_In; eauto.
  - apply incl_refl.
  - eapply Forall2_impl; [|exact HF]. simpl. intros k e [Hk Ht].
    split; [|assumption].
    destruct (build_dag_Ok_inv _ _ _ _ Hk) as (_ & _ & _ & _ & Hn & _).
    assumption.
Qed.

Lemma nodupb_NoDup (l : list string) : nodupb l = true -> NoDup l.
Proof.
  induction l as [|a l IH]; simpl; intros H; [constructor|].
  apply andb_true_iff in H as [Ha Hl]. apply negb_true_iff in Ha.
  constructor; [now apply mem_false_iff | auto].
Qed.

Lemma wf_workflowb_sound (w : workflow) :
  wf_workflowb w = true -> wf_workflow w.
Proof.
  unfold wf_workflowb, wf_workflow, wf_dict. intros H.
  apply andb_true_iff in H as [Hk He]. split; [now apply nodupb_NoDup|].
  intros k val Hin. rewrite forallb_forall in He.
  apply nodupb_NoDup. exact (He (k, val) Hin).
Qed.

(** ** The cycle check of the specification is exact on paths *)

Lemma any_walk_false (rec : string -> outcome bool) :
  forall ns, any_walk rec ns = Ok false ->
    forall n, In n ns -> rec n = Ok false.
Proof.
  induction ns as [|m ns IH]; simpl; intros H n Hin; [contradiction|].
  destruct (rec m) as [[]| |] eqn:E; try discriminate.
  destruct Hin as [<- | Hin]; auto.
Qed.

(** When [walk] answers [False], no path from the node repeats a name,
    the names already on the path included. *)
Lemma walk_false_NoDup (w : workflow) :
  forall fuel n path,
    walk fuel w n path = Ok false ->
    NoDup path ->
    forall p b, graph_path w n p b -> NoDup (path ++ n :: p).
Proof.
  induction fuel as [|fuel IH]; intros n path H Hnd p b Hp; [discriminate|].
  simpl in H. destruct (mem n path) eqn:Hm; [discriminate|].
  apply mem_false_iff in Hm.
  assert (Hnd' : NoDup (path ++ [n])).
  { apply NoDup_app; [assumption|repeat constructor; simpl; tauto|].
    intros a Ha [<- | []]. contradiction. }
  destruct p as [|m p].
  - assumption.
  - simpl in Hp. destruct Hp as [[val [Hg Hin]] Hp].
    rewrite Hg in H.
    pose proof (any_walk_false _ _ H m Hin) as Hw.
    specialize (IH m (path ++ [n]) Hw Hnd' p b Hp).
    now rewrite <- app_assoc in IH.
Qed.

(** What [is_cyclical] accepts, the walk of the specification accepts:
    the shared list makes the code stricter, never laxer. *)
Lemma any_cyclical_false_any_walk (w : workflow) (fuel : nat)
    (path : list string) :
  (forall n v v',
     is_cyclical fuel w n v = Ok (false, v') -> incl path v ->
     walk fuel w n path = Ok false) ->
  forall ns v v',
    any_cyclical (is_cyclical fuel w) ns v = Ok (false, v') ->
    incl path v ->
    any_walk (fun n => walk fuel w n path) ns = Ok false.
Proof.
  intros Hrec. induction ns as [|n ns IH]; simpl; intros v v' H Hincl;
    [reflexivity|].
  destruct (is_cyclical fuel w n v) as [[[] v1]| |] eqn:E; try discriminate.
  rewrite (Hrec n v v1 E Hincl). eapply IH; [exact H|].
  eapply incl_tran; [exact Hincl|]. eapply is_cyclical_grows; eauto.
Qed.

Lemma is_cyclical_false_walk_false (w : workflow) :
  forall fuel n v v' path,
    is_cyclical fuel w n v = Ok (false, v') -> incl path v ->
    walk fuel w n path = Ok false.
Proof.
  induction fuel as [|fuel IH]; intros n v v' path H Hincl; [discriminate|].
  rewrite is_cyclical_S in H. simpl.
  destruct (mem n v) eqn:Hm; [discriminate|].
  assert (Hm' : mem n path = false).
  { apply mem_false_iff. apply mem_false_iff in Hm. auto. }
  rewrite Hm'. destruct (dict_get w n) as [val|]; [|discriminate].
  eapply any_cyclical_false_any_walk; [|exact H|].
  - intros m v1 v2 Hc Hi. eapply IH; eauto.
  - apply incl_app; [apply incl_appl; assumption|].
    apply incl_appr, incl_refl.
Qed.

(** On a graph that passes validation no path from the start node
    repeats a name. *)
Lemma validate_spec_Ok_no_revisit (w : workflow) :
  validate_spec (Some w) = Ok tt ->
  exists start,
    get_start_nodes w = [start] /\
    forall p b, graph_path w start p b -> NoDup (start :: p).
Proof.
  intros Hv. destruct (validate_spec_Ok_inv w Hv) as (start & v & Hs & Hc).
  exists start. split; [assumption|]. intros p b Hp.
  apply (walk_false_NoDup w (enough_fuel w) start [] ) with (b := b);
    [|constructor|assumption].
  eapply is_cyclical_false_walk_false; [exact Hc|]. apply incl_nil_l.
Qed.

(** ** Claims about the validator and the builder *)

(** C1 (a defect of the code).  Cycle detection is meant to be local to
    a path.  In [DIAMOND] exactly one node is marked as start, the walk
    of the specification finds no cycle and no path from the start node
    repeats a name; yet [is_cyclical] answers [True] and [validate_spec]
    raises the cycle error: the one list [visited_nodes] still holds
    [D], left there by the branch through [B], when the branch through
    [C] reaches [D]. *)
Theorem diamond_reported_cyclical :
  get_start_nodes DIAMOND = ["A"] /\
  walk (enough_fuel DIAMOND) DIAMOND "A" [] = Ok false /\
  (forall p b, graph_path DIAMOND "A" p b -> NoDup ("A" :: p)) /\
  is_cyclical (enough_fuel DIAMOND) DIAMOND "A" [] =
    Ok (true, ["A"; "B"; "D"; "C"]) /\
  validate_spec (Some DIAMOND) = Raise (TypeError cycle_found).
Proof.
  assert (Hw : walk (enough_fuel DIAMOND) DIAMOND "A" [] = Ok false)
    by reflexivity.
  repeat split; try reflexivity.
  intros p b Hp.
  exact (walk_false_NoDup DIAMOND _ "A" [] Hw (NoDup_nil _) p b Hp).
Qed.

(** C5 (a defect of the code, the one of C1).  Validation is to succeed
    when exactly one node is marked as start and no cycle is reachable
    from it.  [SHORTCUT] is such a graph and [validate_spec] raises the
    cycle error on it. *)
Theorem shortcut_single_start_rejected :
  length (get_start_nodes SHORTCUT) = 1 /\
  (forall p b, graph_path SHORTCUT "A" p b -> NoDup ("A" :: p)) /\
  validate_spec (Some SHORTCUT) = Raise (TypeError cycle_found).
Proof.
  assert (Hw : walk (enough_fuel SHORTCUT) SHORTCUT "A" [] = Ok false)
    by reflexivity.
  repeat split; try reflexivity.
  intros p b Hp.
  exact (walk_false_NoDup SHORTCUT _ "A" [] Hw (NoDup_nil _) p b Hp).
Qed.

(** C2, as the specification has it, fails: on [DANGLING], whose only
    edge names an absent node, the validator and the builder both end
    in the lookup failure [KeyError], which is none of the errors that
    the validator raises on purpose. *)
Lemma dangling_edge_lookup_failure :
  dangling_edge DANGLING "A" "B" /\
  validate_spec (Some DANGLING) = Raise (KeyError "B") /\
  (forall m, validate_spec (Some DANGLING) <> Raise (TypeError m)) /\
  parse_spec (enough_fuel DANGLING) DANGLING = Raise (KeyError "B").
Proof.
  repeat split; try reflexivity; try discriminate.
  exists (mkDescriptor (Some (JBool true)) (Some [("B", 0.5%Q)])).
  split; [reflexivity | simpl; auto].
Qed.

(** C7.  The builder is deterministic and keeps the order of the edge
    mappings: whatever the depth allowed to the recursion, any two runs
    that return on the same graph and root return the same tree; and the
    edges of every node of the built tree are, name by name and delay by
    delay, the items of that node's edge mapping in insertion order. *)
Theorem build_dag_deterministic_order_preserving (w : workflow)
    (root : string) (fuel : nat) (t : Node) :
  wf_workflow w ->
  build_dag fuel w root = Ok t ->
  (forall fuel' t', build_dag fuel' w root = Ok t' -> t' = t) /\
  (forall pos t',
     subtree t pos = Some t' ->
     exists val,
       dict_get w (name t') = Some val /\
       map (fun e => (name (node e), time e)) (edges t') = get_edges val).
Proof.
  intros Hwf Hb. split.
  - intros fuel' t' Hb'. eapply build_dag_fuel_independent; eauto.
  - intros pos t' Hs.
    destruct (build_dag_subtree w pos fuel root t t' Hb Hs) as [f' Hb'].
    eapply build_dag_edges; eauto.
Qed.

Lemma build_dag_deterministic_order_preserving_witness :
  wf_workflow INTERLEAVED /\
  build_dag 3 INTERLEAVED "A" = Ok interleaved_dag /\
  (forall fuel' t', build_dag fuel' INTERLEAVED "A" = Ok t' ->
                    t' = interleaved_dag) /\
  (forall pos t',
     subtree interleaved_dag pos = Some t' ->
     exists val,
       dict_get INTERLEAVED (name t') = Some val /\
       map (fun e => (name (node e), time e)) (edges t') = get_edges val).
Proof.
  assert (Hwf : wf_workflow INTERLEAVED)
    by (apply wf_workflowb_sound; reflexivity).
  split; [exact Hwf|]. split; [reflexivity|].
  exact (build_dag_deterministic_order_preserving INTERLEAVED "A" 3
           interleaved_dag Hwf eq_refl).
Defined.

(** C9.  On a graph that passes validation the builder terminates: from
    the start node it returns a tree within the depth that the validator
    needed, and with any larger depth it returns that same tree. *)
Theorem build_dag_terminates_after_validation (w : workflow) :
  validate_spec (Some w) = Ok tt ->
  exists t,
    parse_spec (enough_fuel w) w = Ok t /\
    forall fuel, enough_fuel w <= fuel -> parse_spec fuel w = Ok t.
Proof.
  intros Hv.
  destruct (validate_spec_Ok_inv w Hv) as (start & v & Hstart & Hc).
  pose proof (is_cyclical_agrees w (enough_fuel w) start []) as Hag.
  rewrite Hc in Hag. destruct Hag as [t Ht].
  exists t. unfold parse_spec. rewrite Hstart. split; [assumption|].
  intros fuel Hle. eapply build_dag_stable; eauto. discriminate.
Qed.

Lemma build_dag_terminates_after_validation_witness :
  validate_spec (Some INTERLEAVED) = Ok tt /\
  exists t,
    parse_spec (enough_fuel INTERLEAVED) INTERLEAVED = Ok t /\
    forall fuel, enough_fuel INTERLEAVED <= fuel ->
                 parse_spec fuel INTERLEAVED = Ok t.
Proof.
  split; [reflexivity|].
  apply (build_dag_terminates_after_validation INTERLEAVED). reflexivity.
Defined.

(** ** Runtime trees *)

Lemma indexed_from_nth_error {A : Type} (l : list A) :
  forall i j a, In (j, a) (indexed_from i l) ->
    i <= j /\ nth_error l (j - i) = Some a.
Proof.
  induction l as [|b l IH]; simpl; intros i j a H; [contradiction|].
  destruct H as [[= <- <-] | H].
  - rewrite Nat.sub_diag. split; [lia | reflexivity].
  - destruct (IH _ _ _ H) as [Hle Hn]. split; [lia|].
    replace (j - i) with (S (j - S i)) by lia. exact Hn.
Qed.

Lemma indexed_nth_error {A : Type} (l : list A) (j : nat) (a : A) :
  In (j, a) (indexed l) -> nth_error l j = Some a.
Proof.
  intros H. apply indexed_from_nth_error in H as [_ H].
  now rewrite Nat.sub_0_r in H.
Qed.

Lemma indexed_from_length {A : Type} (l : list A) :
  forall i, length (indexed_from i l) = length l.
Proof.
  induction l as [|a l IH]; simpl; intros i; [reflexivity|]. now rewrite IH.
Qed.

Lemma In_spawn (pos : position) (n : Node) (t : task) :
  In t (spawn pos n) ->
  exists i e,
    nth_error (edges n) i = Some e /\
    t = mkTask (pos ++ [i]) (time e) (node e).
Proof.
  unfold spawn. intros H. apply in_map_iff in H as [[i e] [<- Hin]].
  exists i, e. split; [now apply indexed_nth_error | reflexivity].
Qed.

(** [tasks_of], [done] and [nonneg_delays] in terms of the tasks and
    edges of the node. *)
Lemma tasks_of_eq (pos : position) (n : Node) :
  tasks_of pos n = (pos, name n) :: flat_map pending_task (spawn pos n).
Proof.
  destruct n as [nm es]. simpl. f_equal. unfold spawn, indexed. simpl.
  generalize 0. induction es as [|e es IH]; intros i; simpl; [reflexivity|].
  unfold pending_task at 1. simpl. f_equal. apply IH.
Qed.

Lemma done_eq (o : list observation) (pos : position) (n : Node) :
  done o pos n =
  visited o pos && forallb (fun t => done o (t_pos t) (t_node t)) (spawn pos n).
Proof.
  destruct n as [nm es]. simpl. f_equal. unfold spawn, indexed. simpl.
  generalize 0. induction es as [|e es IH]; intros i; simpl; [reflexivity|].
  f_equal. apply IH.
Qed.

Lemma nonneg_delays_eq (n : Node) :
  nonneg_delays n =
  forallb (fun e => Qle_bool 0 (time e) && nonneg_delays (node e)) (edges n).
Proof.
  destruct n as [nm es]. simpl.
  induction es as [|e es IH]; simpl; [reflexivity|]. now rewrite IH.
Qed.

Lemma pending_task_length (t : task) : 1 <= length (pending_task t).
Proof.
  unfold pending_task. rewrite tasks_of_eq. simpl. lia.
Qed.


Lemma subtree_snoc :
  forall p root n i e,
    subtree root p = Some n -> nth_error (edges n) i = Some e ->
    subtree root (p ++ [i]) = Some (node e).
Proof.
  induction p as [|j p IH]; simpl; intros root n i e Hs He.
  - injection Hs as <-. now rewrite He.
  - destruct (nth_error (edges root) j) as [e'|]; [|discriminate]. eauto.
Qed.

Lemma path_delay_snoc :
  forall p root n i e d,
    subtree root p = Some n -> nth_error (edges n) i = Some e ->
    path_delay root p = Some d ->
    exists d', path_delay root (p ++ [i]) = Some d' /\ (d' == d + time e)%Q.
Proof.
  induction p as [|j p IH]; simpl; intros root n i e d Hs He Hd.
  - injection Hs as <-. injection Hd as <-. rewrite He.
    eexists. split; [reflexivity|]. ring.
  - destruct (nth_error (edges root) j) as [e'|]; [|discriminate].
    destruct (path_delay (node e') p) as [d0|] eqn:E; [|discriminate].
    injection Hd as <-.
    destruct (IH _ _ _ _ _ Hs He E) as [d' [-> Hd']].
    eexists. split; [reflexivity|]. rewrite Hd'. ring.
Qed.

Lemma nonneg_delays_edge :
  forall p root n e,
    nonneg_delays root = true ->
    subtree root p = Some n -> In e (edges n) -> (0 <= time e)%Q.
Proof.
  induction p as [|j p IH]; simpl; intros root n e Hnn Hs Hin.
  - injection Hs as <-. rewrite nonneg_delays_eq in Hnn.
    rewrite forallb_forall in Hnn. specialize (Hnn e Hin).
    apply andb_true_iff in Hnn as [Hle _]. now apply Qle_bool_iff.
  - destruct (nth_error (edges root) j) as [e'|] eqn:E; [|discriminate].
    rewrite nonneg_delays_eq in Hnn. rewrite forallb_forall in Hnn.
    specialize (Hnn e' (nth_error_In _ _ E)).
    apply andb_true_iff in Hnn as [_ Hnn]. eauto.
Qed.


(** ** Every node is accounted for *)

Lemma pending_sleeper_suspend (now : Q) (t : task) :
  pending_sleeper (suspend now t) = pending_task t.
Proof. reflexivity. Qed.

Lemma start_loop_accounted (root : Node) : accounted root (start_loop root).
Proof.
  unfold accounted, start_loop, visit. simpl.
  rewrite app_nil_r. unfold observed. simpl.
  rewrite tasks_of_eq. apply Permutation_refl.
Qed.

Lemma step_accounted (root : Node) (s s' : loop_state) :
  step s s' -> accounted root s -> accounted root s'.
Proof.
  unfold accounted. intros Hstep Hacc.
  destruct Hstep as [now t rd sl o | now sl1 x sl2 o Hmin]; simpl in *.
  - rewrite flat_map_app. simpl. rewrite app_nil_r.
    rewrite pending_sleeper_suspend.
    eapply Permutation_trans; [exact Hacc|].
    apply Permutation_app_head.
    rewrite <- app_assoc.
    eapply Permutation_trans; [apply Permutation_app_comm|].
    now rewrite <- app_assoc.
  - rewrite flat_map_app in Hacc. simpl in Hacc.
    rewrite map_app, flat_map_app. simpl.
    eapply Permutation_trans; [exact Hacc|].
    rewrite <- app_assoc. apply Permutation_app_head.
    unfold pending_sleeper at 2. rewrite tasks_of_eq.
    unfold observed at 1. simpl.
    simpl. eapply Permutation_trans; [apply Permutation_sym, Permutation_middle|].
    apply perm_skip. apply Permutation_app_swap_app.
Qed.

Lemma reachable_accounted (root : Node) (s : loop_state) :
  reachable root s -> accounted root s.
Proof.
  induction 1 as [|s s' _ IH Hstep].
  - apply start_loop_accounted.
  - eapply step_accounted; eauto.
Qed.

Lemma quiescent_accounted (root : Node) (s : loop_state) :
  accounted root s -> quiescent s ->
  Permutation (tasks_of [] root) (map observed (out s)).
Proof.
  unfold accounted. intros Hacc [Hr Hs]. rewrite Hr, Hs in Hacc.
  simpl in Hacc. now rewrite app_nil_r in Hacc.
Qed.

(** ** Completion *)

Lemma position_eqb_true_iff (p q : position) :
  position_eqb p q = true <-> p = q.
Proof.
  unfold position_eqb. destruct (list_eq_dec Nat.eq_dec p q);
    split; congruence.
Qed.

Lemma visited_true_iff (o : list observation) (pos : position) :
  visited o pos = true <-> In pos (map o_pos o).
Proof.
  unfold visited. rewrite existsb_exists, in_map_iff.
  split; intros [ob [H1 H2]]; exists ob.
  - apply position_eqb_true_iff in H2. auto.
  - split; [assumption | now apply position_eqb_true_iff].
Qed.

Lemma map_o_pos_observed (o : list observation) :
  map o_pos o = map fst (map observed o).
Proof.
  rewrite map_map. reflexivity.
Qed.

(** A visit is done exactly when every node below it has been visited. *)
Lemma done_true_iff (o : list observation) :
  forall n pos,
    done o pos n = true <->
    (forall p nm, In (p, nm) (tasks_of pos n) -> visited o p = true).
Proof.
  induction n as [nm es IH] using Node_forall_ind.
  intros pos. rewrite done_eq, andb_true_iff, forallb_forall.
  rewrite Forall_forall in IH. split.
  - intros [Hv Hc] p nm' Hin. rewrite tasks_of_eq in Hin.
    destruct Hin as [[= <- _] | Hin]; [assumption|].
    apply in_flat_map in Hin as [t [Ht Hin]].
    specialize (Hc t Ht).
    apply In_spawn in Ht as (i & e & He & ->). simpl in Hc.
    exact (proj1 (IH e (nth_error_In _ _ He) (pos ++ [i])) Hc p nm' Hin).
  - intros H. split.
    + apply (H pos nm). rewrite tasks_of_eq. now left.
    + intros t Ht. pose proof Ht as Ht'.
      apply In_spawn in Ht' as (i & e & He & ->). simpl.
      apply (proj2 (IH e (nth_error_In _ _ He) (pos ++ [i]))).
      intros p nm' Hin.
      apply (H p nm'). rewrite tasks_of_eq. right.
      apply in_flat_map. eexists. split; [exact Ht | exact Hin].
Qed.

Lemma quiescent_done (root : Node) (s : loop_state) :
  accounted root s -> quiescent s -> done (out s) [] root = true.
Proof.
  intros Hacc Hq. apply done_true_iff. intros p nm Hin.
  apply visited_true_iff. rewrite map_o_pos_observed.
  apply in_map_iff. exists (p, nm). split; [reflexivity|].
  eapply Permutation_in; [apply quiescent_accounted; eauto | exact Hin].
Qed.




(** ** The loop with a fixed choice is one of the runs *)

Lemma earliest_spec :
  forall sl x rest,
    earliest sl = Some (x, rest) ->
    exists sl1 sl2,
      sl = sl1 ++ x :: sl2 /\ rest = sl1 ++ sl2 /\
      forall y, In y sl -> (s_wake x <= s_wake y)%Q.
Proof.
  induction sl as [|a sl IH]; simpl; intros x rest H; [discriminate|].
  destruct (earliest sl) as [[y r]|] eqn:E.
  - destruct (IH y r eq_refl) as (sl1 & sl2 & Hsl & Hr & Hmin).
    destruct (Qle_bool (s_wake a) (s_wake y)) eqn:Hle; injection H as <- <-.
    + exists [], sl. repeat split. intros z [<- | Hz]; [apply Qle_refl|].
      apply Qle_bool_iff in Hle. eapply Qle_trans; [exact Hle | auto].
    + exists (a :: sl1), sl2. subst. repeat split.
      intros z [<- | Hz]; [|auto].
      apply Qlt_le_weak, Qnot_le_lt. intros Hc.
      apply Qle_bool_iff in Hc. congruence.
  - injection H as <- <-. destruct sl as [|b sl'].
    + exists [], []. repeat split. intros z [<- | []]. apply Qle_refl.
    + simpl in E. destruct (earliest sl') as [[? ?]|];
        [destruct (Qle_bool _ _)|]; discriminate.
Qed.

Lemma run_once_step (s s' : loop_state) : run_once s = Some s' -> step s s'.
Proof.
  destruct s as [now rd sl o]. unfold run_once. simpl.
  destruct rd as [|t rd].
  - destruct (earliest sl) as [[x rest]|] eqn:E; [|discriminate].
    intros [= <-].
    destruct (earliest_spec sl x rest E) as (sl1 & sl2 & -> & -> & Hmin).
    now apply step_wake.
  - intros [= <-]. apply step_start.
Qed.

Lemma earliest_None (sl : list sleeper) : earliest sl = None -> sl = [].
Proof.
  destruct sl as [|a sl]; [reflexivity|]. simpl.
  destruct (earliest sl) as [[y r]|]; [destruct (Qle_bool _ _)|]; discriminate.
Qed.

Lemma run_once_None (s : loop_state) : run_once s = None -> quiescent s.
Proof.
  destruct s as [now rd sl o]. unfold run_once, quiescent. simpl.
  destruct rd as [|t rd]; [|discriminate].
  destruct (earliest sl) as [[x rest]|] eqn:E; [discriminate|].
  intros _. split; [reflexivity | now apply earliest_None].
Qed.

(** Every turn of the loop takes one off the weight. *)
Lemma step_weight (s s' : loop_state) : step s s' -> weight s = S (weight s').
Proof.
  intros Hstep. unfold weight.
  destruct Hstep as [now t rd sl o | now sl1 x sl2 o Hmin]; simpl.
  - rewrite map_app, list_sum_app, length_app. simpl.
    rewrite pending_sleeper_suspend.
    pose proof (pending_task_length t). lia.
  - rewrite !map_app, !list_sum_app. simpl.
    assert (Hx : length (pending_sleeper x) =
                 S (length (flat_map pending_task
                              (spawn (s_pos x) (s_node x)))))
      by (unfold pending_sleeper; rewrite tasks_of_eq; reflexivity).
    rewrite Hx. lia.
Qed.

Lemma weight_zero_quiescent (s : loop_state) : weight s = 0 -> quiescent s.
Proof.
  unfold weight, quiescent. intros H.
  destruct (ready s) as [|t rd].
  - split; [reflexivity|]. destruct (sleeping s) as [|x sl]; [reflexivity|].
    cbn [map list_sum fold_right] in H.
    assert (1 <= length (pending_sleeper x))
      by (unfold pending_sleeper; rewrite tasks_of_eq; simpl; lia).
    lia.
  - cbn [flat_map] in H. rewrite length_app in H.
    pose proof (pending_task_length t). lia.
Qed.

Lemma weight_start_loop (root : Node) :
  weight (start_loop root) <= 2 * node_count root.
Proof.
  unfold weight, start_loop, visit, node_count. simpl.
  rewrite tasks_of_eq. simpl. lia.
Qed.

(** With as many turns as the weight, the loop runs the main coroutine
    to its end. *)
Lemma run_until_complete_done (root : Node) :
  forall fuel s,
    reachable root s -> weight s <= fuel ->
    exists s',
      run_until_complete fuel root s = Some (Ok s') /\
      reachable root s' /\ done (out s') [] root = true.
Proof.
  induction fuel as [|fuel IH]; intros s Hreach Hw.
  - assert (Hd : done (out s) [] root = true).
    { apply quiescent_done; [now apply reachable_accounted|].
      apply weight_zero_quiescent. lia. }
    exists s. simpl. rewrite Hd. auto.
  - simpl. destruct (done (out s) [] root) eqn:Hd; [eauto|].
    destruct (run_once s) as [s1|] eqn:E.
    + apply run_once_step in E. apply IH.
      * eapply reach_step; eauto.
      * apply step_weight in E. lia.
    + apply run_once_None in E.
      rewrite (quiescent_done root s) in Hd;
        [discriminate | now apply reachable_accounted | assumption].
Qed.

Lemma run_workflow_done (root : Node) :
  exists s,
    run_workflow root = Some (Ok s) /\
    reachable root s /\ done (out s) [] root = true.
Proof.
  apply run_until_complete_done; [constructor | apply weight_start_loop].
Qed.

Lemma run_until_complete_reachable (root : Node) :
  forall fuel s s',
    reachable root s -> run_until_complete fuel root s = Some (Ok s') ->
    reachable root s'.
Proof.
  induction fuel as [|fuel IH]; simpl; intros s s' Hreach H.
  - destruct (done _ _ _); congruence.
  - destruct (done _ _ _); [congruence|].
    destruct (run_once s) as [s1|] eqn:E; [|discriminate].
    eapply IH; [|exact H]. eapply reach_step; eauto.
    now apply run_once_step.
Qed.

Lemma run_workflow_reachable (root : Node) (s : loop_state) :
  run_workflow root = Some (Ok s) -> reachable root s.
Proof.
  apply run_until_complete_reachable. constructor.
Qed.

(** ** Causality *)

Lemma app_snoc_split {A : Type} (l1 l2 o : list A) (a b : A) :
  l1 ++ a :: l2 = o ++ [b] ->
  (l2 = [] /\ l1 = o /\ a = b) \/
  (exists l2', l2 = l2' ++ [b] /\ o = l1 ++ a :: l2').
Proof.
  induction l2 as [|c l2 _] using rev_ind.
  - intros H. apply app_inj_tail in H as [H1 H2]. left. now repeat split.
  - intros H. right. exists l2.
    change (l1 ++ a :: l2 ++ [c]) with (l1 ++ (a :: l2) ++ [c]) in H.
    rewrite app_assoc in H. apply app_inj_tail in H as [H1 H2].
    subst. auto.
Qed.

Lemma start_loop_causal (root : Node) : causal (start_loop root).
Proof.
  unfold causal, start_loop, visit. simpl. repeat split.
  - intros l1 ob l2 p i H Hp.
    destruct l1 as [|a l1]; [|destruct l1; discriminate].
    injection H as <- _. simpl in Hp. destruct p; discriminate.
  - intros t Ht. apply In_spawn in Ht as (i & e & _ & ->). simpl.
    exists [], i, (mkObservation 0%Q [] (name root)).
    split; [reflexivity|]. split; [now left | reflexivity].
  - contradiction.
Qed.

Lemma step_causal (s s' : loop_state) : step s s' -> causal s -> causal s'.
Proof.
  unfold causal. intros Hstep (Hout & Hready & Hsleep).
  destruct Hstep as [now t rd sl o | now sl1 x sl2 o Hmin]; simpl in *.
  - repeat split.
    + exact Hout.
    + intros t' Ht'. apply Hready. now right.
    + intros y Hy. apply in_app_or in Hy as [Hy | [<- | []]].
      * now apply Hsleep.
      * simpl. apply Hready. now left.
  - destruct (Hsleep x) as (px & ix & obx & Hx & Hobx & Hpx);
      [apply in_or_app; right; now left|].
    repeat split.
    + intros l1 ob l2 p i H Hp.
      symmetry in H.
      apply app_snoc_split in H as [(-> & -> & ->) | (l2' & -> & ->)].
      * simpl in Hp. rewrite Hx in Hp. apply app_inj_tail in Hp as [<- _].
        eauto.
      * eapply Hout; eauto.
    + intros t Ht. apply In_spawn in Ht as (i & e & _ & ->). simpl.
      exists (s_pos x), i, (mkObservation (s_wake x) (s_pos x) (name (s_node x))).
      split; [reflexivity|]. split; [|reflexivity].
      apply in_or_app. right. now left.
    + intros y Hy.
      destruct (Hsleep y) as (p & i & ob & Hp & Hob & Hpos).
      { apply in_app_or in Hy as [Hy | Hy]; apply in_or_app;
          [now left | right; now right]. }
      exists p, i, ob. repeat split; auto. apply in_or_app. now left.
Qed.

Lemma reachable_causal (root : Node) (s : loop_state) :
  reachable root s -> causal s.
Proof.
  induction 1 as [|s s' _ IH Hstep].
  - apply start_loop_causal.
  - eapply step_causal; eauto.
Qed.

(** The observation of a node comes after the observation of every node
    above it. *)
Lemma causal_ancestors (s : loop_state) :
  causal s ->
  forall q l1 ob l2 p,
    out s = l1 ++ ob :: l2 -> o_pos ob = p ++ q -> q <> [] ->
    exists ob', In ob' l1 /\ o_pos ob' = p.
Proof.
  intros (Hout & _ & _).
  induction q as [|i q IH] using rev_ind; intros l1 ob l2 p H Hp Hq;
    [congruence|].
  rewrite app_assoc in Hp.
  destruct (Hout l1 ob l2 (p ++ q) i H Hp) as (ob1 & Hin1 & Hpos1).
  destruct q as [|j q'].
  - rewrite app_nil_r in Hpos1. eauto.
  - apply in_split in Hin1 as (la & lb & ->).
    rewrite <- app_assoc in H. simpl in H.
    destruct (IH la ob1 (lb ++ ob :: l2) p H Hpos1) as (ob' & Hin' & Hpos');
      [discriminate|].
    exists ob'. split; [|assumption]. apply in_or_app. now left.
Qed.

(** ** Timing *)

Lemma subtree_snoc_inv :
  forall p root n i n',
    subtree root p = Some n -> subtree root (p ++ [i]) = Some n' ->
    exists e, nth_error (edges n) i = Some e /\ n' = node e.
Proof.
  induction p as [|j p IH]; simpl; intros root n i n' Hs Hs'.
  - injection Hs as <-.
    destruct (nth_error (edges root) i) as [e|]; [|discriminate].
    injection Hs' as <-. eauto.
  - destruct (nth_error (edges root) j) as [e'|]; [|discriminate]. eauto.
Qed.

Lemma wake_time_nonneg (now d : Q) :
  (0 <= d)%Q -> (wake_time now d == now + d)%Q.
Proof.
  intros Hd. unfold wake_time. destruct (Qle_bool d 0) eqn:E; [|reflexivity].
  apply Qle_bool_iff in E. assert (Hz : (d == 0)%Q) by now apply Qle_antisym.
  rewrite Hz. ring.
Qed.

Lemma start_loop_timed (root : Node) : timed root (start_loop root).
Proof.
  unfold timed, start_loop, visit. simpl. repeat split.
  - intros ob [<- | []]. exists root, 0%Q. simpl.
    repeat split; try reflexivity.
  - intros t Ht. apply In_spawn in Ht as (i & e & He & ->). simpl.
    exists [], i, root, e, 0%Q. simpl. repeat split; auto; try reflexivity.
  - contradiction.
Qed.

Lemma step_timed (root : Node) (s s' : loop_state) :
  nonneg_delays root = true -> step s s' -> timed root s -> timed root s'.
Proof.
  unfold timed. intros Hnn Hstep (Hout & Hready & Hsleep).
  destruct Hstep as [now t rd sl o | now sl1 x sl2 o Hmin]; simpl in *.
  - repeat split.
    + exact Hout.
    + intros t' Ht'. apply Hready. now right.
    + intros y Hy. apply in_app_or in Hy as [Hy | [<- | []]];
        [now apply Hsleep|].
      destruct (Hready t (or_introl eq_refl))
        as (p & i & n & e & d & Hp & Hs & He & Hn & Ht & Hd & Hc).
      destruct (path_delay_snoc p root n i e d Hs He Hd) as [d' [Hd' Heq]].
      exists d'. unfold suspend. simpl. rewrite Hp, Hn, Ht.
      split; [eapply subtree_snoc; eauto|]. split; [assumption|].
      rewrite wake_time_nonneg, Heq, Hc; [reflexivity|].
      eapply nonneg_delays_edge; eauto. eapply nth_error_In; eauto.
  - destruct (Hsleep x) as (dx & Hsx & Hdx & Hwx);
      [apply in_or_app; right; now left|].
    repeat split.
    + intros ob Hob. apply in_app_or in Hob as [Hob | [<- | []]];
        [now apply Hout|].
      exists (s_node x), dx. simpl. auto.
    + intros t Ht. apply In_spawn in Ht as (i & e & He & ->). simpl.
      exists (s_pos x), i, (s_node x), e, dx. auto 10.
    + intros y Hy. apply Hsleep.
      apply in_app_or in Hy as [Hy | Hy]; apply in_or_app;
        [now left | right; now right].
Qed.

Lemma reachable_timed (root : Node) (s : loop_state) :
  nonneg_delays root = true -> reachable root s -> timed root s.
Proof.
  intros Hnn. induction 1 as [|s s' _ IH Hstep].
  - apply start_loop_timed.
  - eapply step_timed; eauto.
Qed.

(** ** Claims about the traversal *)

(** C4.  In every state of every run, a task exists, queued or asleep,
    only when the node above its own has been visited already; and in
    the sequence of the observations each node comes after every node
    above it. *)
Theorem children_never_overtake_parent (root : Node) (s : loop_state) :
  reachable root s ->
  (forall t, In t (ready s) ->
     exists p i, t_pos t = p ++ [i] /\ visited (out s) p = true) /\
  (forall x, In x (sleeping s) ->
     exists p i, s_pos x = p ++ [i] /\ visited (out s) p = true) /\
  (forall l1 ob l2 p q,
     out s = l1 ++ ob :: l2 -> o_pos ob = p ++ q -> q <> [] ->
     visited l1 p = true).
Proof.
  intros Hreach. pose proof (reachable_causal root s Hreach) as Hc.
  pose proof Hc as (_ & Hready & Hsleep). repeat split.
  - intros t Ht. destruct (Hready t Ht) as (p & i & ob & Hp & Hin & Hpos).
    exists p, i. split; [assumption|]. apply visited_true_iff.
    rewrite <- Hpos. now apply in_map.
  - intros x Hx. destruct (Hsleep x Hx) as (p & i & ob & Hp & Hin & Hpos).
    exists p, i. split; [assumption|]. apply visited_true_iff.
    rewrite <- Hpos. now apply in_map.
  - intros l1 ob l2 p q Hout Hpos Hq.
    destruct (causal_ancestors s Hc q l1 ob l2 p Hout Hpos Hq)
      as (ob' & Hin & Hpos').
    apply visited_true_iff. rewrite <- Hpos'. now apply in_map.
Qed.

Lemma children_never_overtake_parent_witness :
  reachable interleaved_dag (final_state interleaved_dag) /\
  printed (final_state interleaved_dag) = ["A"; "B"; "D"; "C"] /\
  forall l1 ob l2 p q,
    out (final_state interleaved_dag) = l1 ++ ob :: l2 ->
    o_pos ob = p ++ q -> q <> [] -> visited l1 p = true.
Proof.
  assert (Hr : reachable interleaved_dag (final_state interleaved_dag))
    by (apply run_workflow_reachable; reflexivity).
  split; [exact Hr|]. split; [reflexivity|].
  exact (proj2 (proj2 (children_never_overtake_parent interleaved_dag
                         (final_state interleaved_dag) Hr))).
Defined.



(** The three runs of the test suite. *)
Example test_trivial_dag :
  printed (final_state (mkNode "A" [])) = ["A"].
Proof. reflexivity. Qed.

Example test_simple_dag :
  printed (final_state simple_dag) = ["A"; "B"; "C"] /\
  Forall2 Qeq (map o_time (out (final_state simple_dag)))
              [0%Q; 0.5%Q; 0.7%Q].
Proof. split; [reflexivity | repeat constructor]. Qed.

Example test_interleaved_dag :
  printed (final_state interleaved_dag) = ["A"; "B"; "D"; "C"] /\
  Forall2 Qeq (map o_time (out (final_state interleaved_dag)))
              [0%Q; 0.4%Q; 0.5%Q; 0.7%Q].
Proof. split; [reflexivity | repeat constructor]. Qed.

(** The trees and the verdicts that the test suite expects. *)
Example test_parse_spec :
  parse_spec 1 TRIVIAL = Ok (mkNode "A" []) /\
  parse_spec 2 SIMPLE = Ok simple_dag /\
  parse_spec 3 INTERLEAVED = Ok interleaved_dag.
Proof. repeat split. Qed.

Example test_validate_spec :
  validate_spec (Some TRIVIAL) = Ok tt /\
  validate_spec (Some TWO_STARTS) =
    Raise (TypeError (more_than_one_start_node_found ["A"; "B"])) /\
  validate_spec (Some NO_STARTS) = Raise (TypeError no_start_nodes_found) /\
  validate_spec (Some CYCLICAL) = Raise (TypeError cycle_found) /\
  validate_spec None = Raise (TypeError invalid_workflow_spec).
Proof. repeat split. Qed.

(** * Further properties of the code *)

(** ** The cycle check: fuel, errors and what it walks *)

Lemma get_start_nodes_filter (w : workflow) :
  get_start_nodes w = start_marked w.
Proof.
  unfold start_marked. induction w as [|[key val] w IH]; simpl; [reflexivity|].
  destruct (is_True (get_start val)); simpl; now rewrite IH.
Qed.

Lemma any_cyclical_stable
    (rec rec' : string -> list string -> outcome (bool * list string)) :
  (forall n v r, rec n v = r -> r <> OutOfFuel -> rec' n v = r) ->
  forall ns v r,
    any_cyclical rec ns v = r -> r <> OutOfFuel -> any_cyclical rec' ns v = r.
Proof.
  intros Hrec. induction ns as [|n ns IH]; simpl; intros v r H Hr;
    [assumption|].
  destruct (rec n v) as [[[] v1]|e|] eqn:E.
  - rewrite (Hrec n v _ E) by discriminate. assumption.
  - rewrite (Hrec n v _ E) by discriminate. now apply IH.
  - rewrite (Hrec n v _ E) by discriminate. assumption.
  - congruence.
Qed.

Lemma is_cyclical_S_stable (w : workflow) :
  forall fuel n v r,
    is_cyclical fuel w n v = r -> r <> OutOfFuel ->
    is_cyclical (S fuel) w n v = r.
Proof.
  induction fuel as [|fuel IH]; intros n v r H Hr; [simpl in H; congruence|].
  rewrite is_cyclical_S in H. rewrite is_cyclical_S.
  destruct (mem n v); [assumption|].
  destruct (dict_get w n) as [val|]; [|assumption].
  eapply any_cyclical_stable; [|exact H|exact Hr]. exact IH.
Qed.

Lemma is_cyclical_stable (w : workflow) (fuel fuel' : nat) (n : string)
    (v : list string) (r : outcome (bool * list string)) :
  is_cyclical fuel w n v = r -> r <> OutOfFuel -> fuel <= fuel' ->
  is_cyclical fuel' w n v = r.
Proof.
  intros H Hr Hle. induction Hle; [assumption|].
  now apply is_cyclical_S_stable.
Qed.

Lemma graph_path_app (w : workflow) :
  forall p a b q c,
    graph_path w a p b -> graph_path w b q c -> graph_path w a (p ++ q) c.
Proof.
  induction p as [|n p IH]; simpl; intros a b q c Hp Hq.
  - now subst.
  - destruct Hp as [He Hp]. split; [assumption|]. eapply IH; eauto.
Qed.

(** What a call leaves on the shared list was there before or can be
    reached from the node of the call. *)
Lemma any_cyclical_visited_reachable (w : workflow) (fuel : nat) :
  (forall n v b v',
     is_cyclical fuel w n v = Ok (b, v') ->
     forall x, In x v' -> In x v \/ exists p, graph_path w n p x) ->
  forall ns v b v',
    any_cyclical (is_cyclical fuel w) ns v = Ok (b, v') ->
    forall x, In x v' ->
      In x v \/ exists k p, In k ns /\ graph_path w k p x.
Proof.
  intros Hrec. induction ns as [|n ns IH]; simpl; intros v b v' H x Hx.
  - injection H as _ <-. now left.
  - destruct (is_cyclical fuel w n v) as [[[] v1]| |] eqn:E; try discriminate.
    + injection H as _ <-.
      destruct (Hrec _ _ _ _ E x Hx) as [Hv | [p Hp]]; [now left|].
      right. exists n, p. split; [now left | assumption].
    + destruct (IH _ _ _ H x Hx) as [Hv1 | (k & p & Hk & Hp)].
      * destruct (Hrec _ _ _ _ E x Hv1) as [Hv | [p Hp]]; [now left|].
        right. exists n, p. split; [now left | assumption].
      * right. exists k, p. split; [now right | assumption].
Qed.

Lemma is_cyclical_visited_reachable (w : workflow) :
  forall fuel n v b v',
    is_cyclical fuel w n v = Ok (b, v') ->
    forall x, In x v' -> In x v \/ exists p, graph_path w n p x.
Proof.
  induction fuel as [|fuel IH]; intros n v b v' H x Hx; [discriminate|].
  rewrite is_cyclical_S in H.
  destruct (mem n v); [injection H as _ <-; now left|].
  destruct (dict_get w n) as [val|] eqn:Hg; [|discriminate].
  destruct (any_cyclical_visited_reachable w fuel IH _ _ _ _ H x Hx)
    as [Hv | (k & p & Hk & Hp)].
  - apply in_app_or in Hv as [Hv | [<- | []]]; [now left|].
    right. now exists [].
  - right. exists (k :: p). simpl. split; [|assumption].
    exists val. auto.
Qed.

(** The shared list never holds a name twice. *)
Lemma any_cyclical_NoDup
    (rec : string -> list string -> outcome (bool * list string)) :
  (forall n v b v', rec n v = Ok (b, v') -> NoDup v -> NoDup v') ->
  forall ns v b v',
    any_cyclical rec ns v = Ok (b, v') -> NoDup v -> NoDup v'.
Proof.
  intros Hrec. induction ns as [|n ns IH]; simpl; intros v b v' H Hnd.
  - now injection H as _ <-.
  - destruct (rec n v) as [[[] v1]| |] eqn:E; try discriminate.
    + injection H as _ <-. eapply Hrec; eauto.
    + eapply IH; [exact H|]. eapply Hrec; eauto.
Qed.

Lemma is_cyclical_NoDup (w : workflow) :
  forall fuel n v b v',
    is_cyclical fuel w n v = Ok (b, v') -> NoDup v -> NoDup v'.
Proof.
  induction fuel as [|fuel IH]; intros n v b v' H Hnd; [discriminate|].
  rewrite is_cyclical_S in H.
  destruct (mem n v) eqn:Hm; [now injection H as _ <-|].
  destruct (dict_get w n) as [val|]; [|discriminate].
  eapply any_cyclical_NoDup; [exact IH|exact H|].
  apply NoDup_app; [assumption|repeat constructor; simpl; tauto|].
  apply mem_false_iff in Hm. intros a Ha [<- | []]. contradiction.
Qed.

(** The only exception of the cycle check is the lookup failure of a
    name that is absent from the graph and can be reached from the node
    of the call. *)
Lemma any_cyclical_Raise (w : workflow) (fuel : nat) :
  (forall n v e,
     is_cyclical fuel w n v = Raise e ->
     exists k p, e = KeyError k /\ dict_get w k = None /\ graph_path w n p k) ->
  forall ns v e,
    any_cyclical (is_cyclical fuel w) ns v = Raise e ->
    exists m k p,
      In m ns /\ e = KeyError k /\ dict_get w k = None /\ graph_path w m p k.
Proof.
  intros Hrec. induction ns as [|n ns IH]; simpl; intros v e H;
    [discriminate|].
  destruct (is_cyclical fuel w n v) as [[[] v1]|e0|] eqn:E; try discriminate.
  - destruct (IH _ _ H) as (m & k & p & Hm & He & Hk & Hp).
    exists m, k, p. auto.
  - injection H as ->. destruct (Hrec _ _ _ E) as (k & p & He & Hk & Hp).
    exists n, k, p. auto.
Qed.

Lemma is_cyclical_Raise (w : workflow) :
  forall fuel n v e,
    is_cyclical fuel w n v = Raise e ->
    exists k p, e = KeyError k /\ dict_get w k = None /\ graph_path w n p k.
Proof.
  induction fuel as [|fuel IH]; intros n v e H; [discriminate|].
  rewrite is_cyclical_S in H.
  destruct (mem n v); [discriminate|].
  destruct (dict_get w n) as [val|] eqn:Hg.
  - destruct (any_cyclical_Raise w fuel IH _ _ _ H)
      as (m & k & p & Hm & He & Hk & Hp).
    exists k, (m :: p). simpl. repeat split; auto. exists val. auto.
  - injection H as <-. exists n, []. simpl. auto.
Qed.

Lemma enough_fuel_enough (w : workflow) : unvisited w [] < enough_fuel w.
Proof.
  unfold enough_fuel. pose proof (unvisited_le_length w []). lia.
Qed.

Lemma is_cyclical_enough (w : workflow) (n : string) (v : list string)
    (fuel : nat) :
  unvisited w v < fuel ->
  is_cyclical fuel w n v = is_cyclical (S (unvisited w v)) w n v.
Proof.
  intros Hf. eapply is_cyclical_stable; [reflexivity| |lia].
  apply is_cyclical_total. lia.
Qed.

(** X1.  [is_cyclical] always ends, on graphs with cycles too: with a
    call stack deeper than the number of keys that the shared list does
    not hold yet, it returns or raises, and a deeper stack gives the
    same answer. *)
Theorem is_cyclical_terminates (w : workflow) (n : string)
    (v : list string) :
  exists r,
    r <> OutOfFuel /\
    forall fuel, unvisited w v < fuel -> is_cyclical fuel w n v = r.
Proof.
  exists (is_cyclical (S (unvisited w v)) w n v).
  split; [apply is_cyclical_total; lia|].
  intros fuel Hf. now apply is_cyclical_enough.
Qed.

(** ** The part of the graph that the start node does not reach *)

Lemma any_cyclical_ext
    (rec rec' : string -> list string -> outcome (bool * list string)) :
  forall ns v,
    (forall n v, In n ns -> rec' n v = rec n v) ->
    any_cyclical rec' ns v = any_cyclical rec ns v.
Proof.
  induction ns as [|n ns IH]; simpl; intros v H; [reflexivity|].
  rewrite (H n v (or_introl eq_refl)).
  destruct (rec n v) as [[[] v1]| |]; try reflexivity.
  apply IH. intros m v' Hm. apply H. now right.
Qed.

Lemma is_cyclical_local (w w' : workflow) :
  forall fuel n v,
    (forall p a, graph_path w n p a -> dict_get w' a = dict_get w a) ->
    is_cyclical fuel w' n v = is_cyclical fuel w n v.
Proof.
  induction fuel as [|fuel IH]; intros n v H; [reflexivity|].
  rewrite !is_cyclical_S. rewrite (H [] n eq_refl).
  destruct (mem n v); [reflexivity|].
  destruct (dict_get w n) as [val|] eqn:Hg; [|reflexivity].
  apply any_cyclical_ext. intros m v' Hm. apply IH.
  intros p a Hp. apply (H (m :: p) a). simpl. split; [|assumption].
  exists val. auto.
Qed.

(** X3.  The validator looks only at what the start nodes reach: two
    graphs with the same start-marked keys, and the same descriptor (or
    none) under every name that a start node of the first reaches, get
    the same verdict.  A cycle or a missing node elsewhere changes
    nothing. *)
Theorem validate_spec_ignores_unreachable (w w' : workflow) :
  get_start_nodes w' = get_start_nodes w ->
  (forall start p a,
     In start (get_start_nodes w) -> graph_path w start p a ->
     dict_get w' a = dict_get w a) ->
  validate_spec (Some w') = validate_spec (Some w).
Proof.
  intros Hs Hreach. unfold validate_spec. rewrite Hs.
  destruct (get_start_nodes w) as [|a l] eqn:E; [reflexivity|].
  destruct (1 <? length (a :: l)); [reflexivity|].
  assert (Hloc : forall fuel,
            is_cyclical fuel w' a [] = is_cyclical fuel w a []).
  { intros fuel. apply is_cyclical_local. intros p b Hp.
    apply (Hreach a p b); [now left | assumption]. }
  rewrite (is_cyclical_enough w a [] _ (enough_fuel_enough w)).
  rewrite Hloc.
  destruct (Nat.le_ge_cases (enough_fuel w) (enough_fuel w')) as [Hle | Hle].
  - rewrite (is_cyclical_enough w a [] (enough_fuel w')); [reflexivity|].
    pose proof (enough_fuel_enough w). lia.
  - assert (Hr' : is_cyclical (enough_fuel w') w' a [] <> OutOfFuel)
      by (apply is_cyclical_total, enough_fuel_enough).
    rewrite Hloc in Hr'.
    pose proof (is_cyclical_stable w (enough_fuel w') (enough_fuel w) a []
                  _ eq_refl Hr' Hle) as Hst.
    rewrite (is_cyclical_enough w a [] _ (enough_fuel_enough w)) in Hst.
    now rewrite <- Hst.
Qed.

Lemma dict_get_app_l {V : Type} (d d' : dict V) (k : string) :
  dict_get d k <> None -> dict_get (d ++ d') k = dict_get d k.
Proof.
  induction d as [|[k' v'] d IH]; simpl; intros H; [congruence|].
  destruct (String.eqb k' k); [reflexivity | auto].
Qed.

Lemma validate_spec_ignores_unreachable_witness :
  get_start_nodes ISLAND = get_start_nodes INTERLEAVED /\
  validate_spec (Some CYCLICAL) = Raise (TypeError cycle_found) /\
  validate_spec (Some ISLAND) = validate_spec (Some INTERLEAVED).
Proof.
  split; [reflexivity|]. split; [reflexivity|].
  apply (validate_spec_ignores_unreachable INTERLEAVED ISLAND eq_refl).
  intros start p a Hstart Hp. unfold ISLAND. apply dict_get_app_l.
  destruct Hstart as [<- | []].
  apply (build_dag_reaches_keys INTERLEAVED 3 "A" interleaved_dag p a eq_refl Hp).
Defined.

(** ** What the validator accepts *)

(** On success the shared list has grown by the names of the built tree
    in preorder. *)
Lemma any_cyclical_preorder (w : workflow) (fuel : nat) (edges : dict Q) :
  (forall n v v' t pos,
     is_cyclical fuel w n v = Ok (false, v') -> build_dag fuel w n = Ok t ->
     v' = v ++ map snd (tasks_of pos t)) ->
  forall ns es v v' pos i,
    any_cyclical (is_cyclical fuel w) ns v = Ok (false, v') ->
    Forall2 (fun k e => build_dag fuel w k = Ok (node e) /\
                        dict_get edges k = Some (time e)) ns es ->
    v' = v ++ map snd (flat_map pending_task
                         (map (fun ie => mkTask (pos ++ [fst ie])
                                           (time (snd ie)) (node (snd ie)))
                              (indexed_from i es))).
Proof.
  intros Hrec. induction ns as [|n ns IH]; intros es v v' pos i H HF.
  - inversion HF; subst. simpl in *. injection H as <-.
    now rewrite app_nil_r.
  - inversion HF as [|? e ? es' [Hb _] HF']; subst. simpl in H.
    destruct (is_cyclical fuel w n v) as [[[] v1]| |] eqn:E; try discriminate.
    simpl. rewrite map_app, app_assoc.
    unfold pending_task at 1. simpl.
    rewrite <- (Hrec n v v1 (node e) (pos ++ [i]) E Hb).
    now apply IH.
Qed.

Lemma is_cyclical_preorder (w : workflow) :
  forall fuel n v v' t pos,
    is_cyclical fuel w n v = Ok (false, v') -> build_dag fuel w n = Ok t ->
    v' = v ++ map snd (tasks_of pos t).
Proof.
  induction fuel as [|fuel IH]; intros n v v' t pos H Hb; [discriminate|].
  rewrite is_cyclical_S in H.
  destruct (mem n v); [discriminate|].
  destruct (build_dag_Ok_inv _ _ _ _ Hb) as (f' & val & [= <-] & Hg & Hn & HF).
  rewrite Hg in H. rewrite tasks_of_eq. simpl. rewrite Hn.
  rewrite (any_cyclical_preorder w fuel (get_edges val) IH _ _ _ _ pos 0 H HF).
  rewrite <- app_assoc. reflexivity.
Qed.

Lemma In_indexed_from {A : Type} (l : list A) :
  forall i j a, nth_error l j = Some a -> In (i + j, a) (indexed_from i l).
Proof.
  induction l as [|b l IH]; intros i [|j] a H; simpl in *; try discriminate.
  - injection H as <-. rewrite Nat.add_0_r. now left.
  - right. replace (i + S j) with (S i + j) by lia. now apply IH.
Qed.

Lemma spawn_In (pos : position) (n : Node) (i : nat) (e : Edge_of Node) :
  nth_error (edges n) i = Some e ->
  In (mkTask (pos ++ [i]) (time e) (node e)) (spawn pos n).
Proof.
  intros H. unfold spawn. apply in_map_iff. exists (i, e).
  split; [reflexivity|]. exact (In_indexed_from (edges n) 0 i e H).
Qed.

Lemma subtree_In_tasks_of :
  forall pos t t' prefix,
    subtree t pos = Some t' -> In (prefix ++ pos, name t') (tasks_of prefix t).
Proof.
  induction pos as [|i pos IH]; simpl; intros t t' prefix H.
  - injection H as <-. rewrite app_nil_r, tasks_of_eq. now left.
  - destruct (nth_error (edges t) i) as [e|] eqn:E; [|discriminate].
    rewrite tasks_of_eq. right. apply in_flat_map.
    exists (mkTask (prefix ++ [i]) (time e) (node e)).
    split; [now apply spawn_In|].
    unfold pending_task. simpl.
    replace (prefix ++ i :: pos) with ((prefix ++ [i]) ++ pos)
      by now rewrite <- app_assoc.
    now apply IH.
Qed.

Lemma NoDup_map_injective {A B : Type} (f : A -> B) (l : list A) :
  NoDup (map f l) ->
  forall x y, In x l -> In y l -> f x = f y -> x = y.
Proof.
  induction l as [|a l IH]; simpl; intros Hnd x y Hx Hy Hf; [contradiction|].
  inversion Hnd as [|? ? Hnotin Hnd']; subst.
  destruct Hx as [<- | Hx], Hy as [<- | Hy]; auto.
  - exfalso. apply Hnotin. rewrite Hf. now apply in_map.
  - exfalso. apply Hnotin. rewrite <- Hf. now apply in_map.
Qed.

(** In a tree whose names are all different, a name is reached by one
    path only. *)
Lemma build_dag_unique_paths (w : workflow) (fuel : nat) (root : string)
    (t : Node) :
  build_dag fuel w root = Ok t -> NoDup (preorder t) ->
  forall p1 p2 b,
    graph_path w root p1 b -> graph_path w root p2 b -> p1 = p2.
Proof.
  intros Hb Hnd p1 p2 b H1 H2.
  destruct (build_dag_path_position w p1 fuel root t b Hb H1)
    as (pos1 & t1 & Hn1 & Hs1 & Hb1).
  destruct (build_dag_path_position w p2 fuel root t b Hb H2)
    as (pos2 & t2 & Hn2 & Hs2 & Hb2).
  pose proof (subtree_In_tasks_of pos1 t t1 [] Hs1) as Hin1.
  pose proof (subtree_In_tasks_of pos2 t t2 [] Hs2) as Hin2.
  simpl in Hin1, Hin2. rewrite Hb1 in Hin1. rewrite Hb2 in Hin2.
  assert (Heq : (pos1, b) = (pos2, b))
    by (eapply NoDup_map_injective; eauto).
  injection Heq as ->. congruence.
Qed.

(** When the cycle check answers [True], a name of the shared list is
    reached again, or some name is reached along two paths. *)
Lemma any_cyclical_true_split (w : workflow) (fuel : nat) :
  forall ns v0 v',
    any_cyclical (is_cyclical fuel w) ns v0 = Ok (true, v') ->
    exists l1 m l2 vm,
      ns = l1 ++ m :: l2 /\
      is_cyclical fuel w m vm = Ok (true, v') /\
      forall x, In x vm ->
        In x v0 \/ exists k p, In k l1 /\ graph_path w k p x.
Proof.
  induction ns as [|n ns IH]; simpl; intros v0 v' H; [discriminate|].
  destruct (is_cyclical fuel w n v0) as [[[] v1]| |] eqn:E; try discriminate.
  - injection H as <-. exists [], n, ns, v0. repeat split; auto.
  - destruct (IH v1 v' H) as (l1 & m & l2 & vm & -> & Hm & Hvm).
    exists (n :: l1), m, l2, vm. repeat split; auto.
    intros x Hx. destruct (Hvm x Hx) as [Hv1 | (k & p & Hk & Hp)].
    + destruct (is_cyclical_visited_reachable _ _ _ _ _ _ E x Hv1)
        as [Hv0 | [p Hp]]; [now left|].
      right. exists n, p. split; [now left | assumption].
    + right. exists k, p. split; [now right | assumption].
Qed.

Lemma is_cyclical_true_two_paths (w : workflow) :
  (forall k val, In (k, val) w -> wf_dict (get_edges val)) ->
  forall fuel n v v',
    is_cyclical fuel w n v = Ok (true, v') ->
    exists p b,
      graph_path w n p b /\
      (In b v \/ exists p', p' <> p /\ graph_path w n p' b).
Proof.
  intros Hwf. induction fuel as [|fuel IH]; intros n v v' H; [discriminate|].
  rewrite is_cyclical_S in H.
  destruct (mem n v) eqn:Hm.
  - exists [], n. split; [reflexivity|]. left. now apply mem_true_iff.
  - destruct (dict_get w n) as [val|] eqn:Hg; [|discriminate].
    destruct (any_cyclical_true_split w fuel _ _ _ H)
      as (l1 & m & l2 & vm & Hns & Hcall & Hvm).
    assert (Hedge : forall k, In k (l1 ++ m :: l2) -> edge_of w n k).
    { intros k Hk. exists val. split; [assumption | now rewrite Hns]. }
    assert (Hnd : NoDup (l1 ++ m :: l2)).
    { rewrite <- Hns. apply (Hwf n val). now apply dict_get_Some_In. }
    assert (Hm_edge : edge_of w n m)
      by (apply Hedge, in_or_app; right; now left).
    destruct (IH m vm v' Hcall) as (p & b & Hp & [Hb | (p' & Hne & Hp')]).
    + exists (m :: p), b. split; [simpl; auto|].
      destruct (Hvm b Hb) as [Hv0 | (k & q & Hk & Hq)].
      * apply in_app_or in Hv0 as [Hv | [<- | []]]; [now left|].
        right. exists []. split; [discriminate | reflexivity].
      * right. exists (k :: q). split.
        -- intros [= -> _]. apply NoDup_remove_2 in Hnd. apply Hnd.
           apply in_or_app. now left.
        -- simpl. split; [|assumption].
           apply Hedge, in_or_app. now left.
    + exists (m :: p), b. split; [simpl; auto|].
      right. exists (m :: p'). split; [congruence | simpl; auto].
Qed.

(** ** The builder without the validator *)

Lemma build_dag_depth (w : workflow) :
  forall pos fuel n t t',
    build_dag fuel w n = Ok t -> subtree t pos = Some t' ->
    length pos < fuel.
Proof.
  induction pos as [|i pos IH]; simpl; intros fuel n t t' Hb Hs.
  - destruct (build_dag_Ok_inv _ _ _ _ Hb) as (f' & _ & -> & _). lia.
  - destruct (build_dag_Ok_inv _ _ _ _ Hb) as (f' & val & -> & _ & _ & HF).
    destruct (nth_error (edges t) i) as [e|] eqn:Ee; [|discriminate].
    destruct (Forall2_nth_error_r _ _ _ HF i e Ee) as (k & _ & Hk & _).
    pose proof (IH _ _ _ _ Hk Hs). lia.
Qed.

Lemma names_along_length :
  forall pos t p, names_along t pos = Some p -> length p = length pos.
Proof.
  induction pos as [|i pos IH]; simpl; intros t p H.
  - now injection H as <-.
  - destruct (nth_error (edges t) i) as [e|]; [|discriminate].
    destruct (names_along (node e) pos) as [p'|] eqn:E; [|discriminate].
    injection H as <-. simpl. f_equal. eapply IH; eauto.
Qed.

Lemma graph_path_laps (w : workflow) (a : string) (q : list string) :
  graph_path w a q a -> forall k, graph_path w a (laps q k) a.
Proof.
  intros Hq. induction k as [|k IH]; simpl; [reflexivity|].
  eapply graph_path_app; eauto.
Qed.

Lemma laps_length (q : list string) (k : nat) :
  q <> [] -> k <= length (laps q k).
Proof.
  intros Hq. induction k as [|k IH]; simpl; [lia|].
  rewrite length_app. destruct q; [congruence|]. simpl. lia.
Qed.

Lemma build_dag_Raise_reachable (w : workflow) :
  forall fuel n e,
    build_dag fuel w n = Raise e ->
    exists k p, e = KeyError k /\ dict_get w k = None /\ graph_path w n p k.
Proof.
  induction fuel as [|fuel IH]; intros n e H; [discriminate|].
  rewrite build_dag_S in H.
  destruct (dict_get w n) as [val|] eqn:Hg.
  - destruct (comprehension _ _ _) as [es|e0|] eqn:Ec; try discriminate.
    injection H as ->.
    apply (comprehension_Raise (build_dag fuel w) (get_edges val)
             (fun e => exists k p,
                e = KeyError k /\ dict_get w k = None /\ graph_path w n p k)
             (dict_keys (get_edges val)) e); [|apply incl_refl|exact Ec].
    intros m e' Hm Hr. destruct (IH _ _ Hr) as (k & p & He & Hk & Hp).
    exists k, (m :: p). simpl. repeat split; auto. exists val. auto.
  - injection H as <-. exists n, []. simpl. auto.
Qed.

(** X5.  Without the validator the builder does not survive a cycle.
    When a closed path can be reached from the root, no depth of the
    call stack lets [build_dag] return a tree: the recursion is cut
    short, or it raises the [KeyError] of an absent name that the root
    reaches; and when every name that the root reaches is a key, the
    recursion is cut short at every depth. *)
Theorem build_dag_cycle_never_returns (w : workflow) (root : string)
    (p : list string) (a : string) (q : list string) :
  graph_path w root p a ->
  graph_path w a q a ->
  q <> [] ->
  (forall fuel,
     match build_dag fuel w root with
     | Ok _ => False
     | Raise e =>
         exists k r,
           e = KeyError k /\ dict_get w k = None /\ graph_path w root r k
     | OutOfFuel => True
     end) /\
  ((forall r k, graph_path w root r k -> dict_get w k <> None) ->
   forall fuel, build_dag fuel w root = OutOfFuel).
Proof.
  intros Hp Hq Hne.
  assert (Hnever : forall fuel t, build_dag fuel w root <> Ok t).
  { intros fuel t Hb.
    assert (Hlong : graph_path w root (p ++ laps q fuel) a)
      by (eapply graph_path_app; [exact Hp | now apply graph_path_laps]).
    destruct (build_dag_path_position w _ fuel root t a Hb Hlong)
      as (pos & t' & Hn & Hs & _).
    pose proof (build_dag_depth w pos fuel root t t' Hb Hs) as Hd.
    apply names_along_length in Hn. rewrite length_app in Hn.
    pose proof (laps_length q fuel Hne). lia. }
  split.
  - intros fuel. destruct (build_dag fuel w root) as [t|e|] eqn:Hb.
    + exact (Hnever fuel t Hb).
    + now apply build_dag_Raise_reachable in Hb.
    + exact I.
  - intros Hkeys fuel. destruct (build_dag fuel w root) as [t|e|] eqn:Hb.
    + exfalso. exact (Hnever fuel t Hb).
    + exfalso. apply build_dag_Raise_reachable in Hb
        as (k & r & _ & Hk & Hr). exact (Hkeys r k Hr Hk).
    + reflexivity.
Qed.

Lemma build_dag_cycle_never_returns_witness :
  graph_path CYCLICAL "A" [] "A" /\
  graph_path CYCLICAL "A" ["B"; "A"] "A" /\
  forall fuel,
    match build_dag fuel CYCLICAL "A" with
    | Ok _ => False
    | Raise e =>
        exists k r,
          e = KeyError k /\ dict_get CYCLICAL k = None /\
          graph_path CYCLICAL "A" r k
    | OutOfFuel => True
    end.
Proof.
  assert (Hq : graph_path CYCLICAL "A" ["B"; "A"] "A")
    by (simpl; repeat split;
        eexists; (split; [reflexivity | simpl; auto])).
  split; [reflexivity|]. split; [exact Hq|].
  apply (build_dag_cycle_never_returns CYCLICAL "A" [] "A" ["B"; "A"]
           eq_refl Hq).
  discriminate.
Defined.

(** ** The whole program *)

Lemma reachable_out_head (root : Node) (s : loop_state) :
  reachable root s ->
  exists rest, out s = mkObservation 0%Q [] (name root) :: rest.
Proof.
  induction 1 as [|s s' _ [rest IH] Hstep].
  - now exists [].
  - destruct Hstep as [now t rd sl o | now sl1 x sl2 o Hmin]; simpl in *.
    + now exists rest.
    + rewrite IH. eexists. reflexivity.
Qed.


(** ** The order of the visits *)

Lemma wake_time_ge (now d : Q) : (now <= wake_time now d)%Q.
Proof.
  unfold wake_time. destruct (Qle_bool d 0) eqn:E; [apply Qle_refl|].
  assert (Hd : (0 < d)%Q).
  { apply Qnot_le_lt. intros Hc. apply Qle_bool_iff in Hc. congruence. }
  rewrite <- (Qplus_0_r now) at 1. apply Qplus_le_r. now apply Qlt_le_weak.
Qed.

Lemma in_time_order_snoc (o : list observation) (ob : observation) :
  in_time_order o ->
  (forall ob', In ob' o -> (o_time ob' <= o_time ob)%Q) ->
  in_time_order (o ++ [ob]).
Proof.
  induction o as [|a o IH]; simpl; intros Ho Hle.
  - split; [contradiction | exact I].
  - destruct Ho as [Ha Ho]. split.
    + intros ob' Hin. apply in_app_or in Hin as [Hin | [<- | []]]; auto.
    + apply IH; auto.
Qed.

Lemma start_loop_clocked (root : Node) : clocked (start_loop root).
Proof.
  unfold clocked, start_loop, visit. simpl. repeat split.
  - contradiction.
  - intros ob [<- | []]. apply Qle_refl.
  - contradiction.
Qed.

Lemma step_clocked (s s' : loop_state) : step s s' -> clocked s -> clocked s'.
Proof.
  unfold clocked. intros Hstep (Hord & Hpast & Hfut).
  destruct Hstep as [now t rd sl o | now sl1 x sl2 o Hmin]; simpl in *.
  - repeat split; auto.
    intros y Hy. apply in_app_or in Hy as [Hy | [<- | []]]; auto.
    apply wake_time_ge.
  - assert (Hx : (now <= s_wake x)%Q)
      by (apply Hfut, in_or_app; right; now left).
    repeat split.
    + apply in_time_order_snoc; [assumption|]. simpl.
      intros ob Hob. eapply Qle_trans; [apply Hpast; exact Hob | exact Hx].
    + intros ob Hob. apply in_app_or in Hob as [Hob | [<- | []]].
      * eapply Qle_trans; [apply Hpast; exact Hob | exact Hx].
      * apply Qle_refl.
    + intros y Hy. apply Hmin.
      apply in_app_or in Hy as [Hy | Hy]; apply in_or_app;
        [now left | right; now right].
Qed.

Lemma reachable_clocked (root : Node) (s : loop_state) :
  reachable root s -> clocked s.
Proof.
  induction 1 as [|s s' _ IH Hstep].
  - apply start_loop_clocked.
  - eapply step_clocked; eauto.
Qed.

(** X8.  In every state of every run, whatever the delays, the output
    begins with the root, observed at time zero, and the times of the
    observations never decrease from one line to the next; no
    observation lies after the clock and no sleeper wakes before it. *)
Theorem observations_in_time_order (root : Node) (s : loop_state) :
  reachable root s ->
  (exists rest, out s = mkObservation 0%Q [] (name root) :: rest) /\
  in_time_order (out s) /\
  (forall ob, In ob (out s) -> (0 <= o_time ob <= clock s)%Q) /\
  (forall x, In x (sleeping s) -> (clock s <= s_wake x)%Q).
Proof.
  intros Hreach.
  destruct (reachable_clocked root s Hreach) as (Hord & Hpast & Hfut).
  destruct (reachable_out_head root s Hreach) as [rest Hout].
  split; [now exists rest|]. split; [assumption|]. split; [|assumption].
  intros ob Hob. split; [|now apply Hpast].
  rewrite Hout in Hord, Hob. simpl in Hord. destruct Hord as [Hhd _].
  destruct Hob as [<- | Hob]; [apply Qle_refl | now apply Hhd].
Qed.

Lemma observations_in_time_order_witness :
  reachable diamond_dag (final_state diamond_dag) /\
  printed (final_state diamond_dag) = ["A"; "B"; "C"; "D"; "D"] /\
  in_time_order (out (final_state diamond_dag)).
Proof.
  assert (Hr : reachable diamond_dag (final_state diamond_dag))
    by (apply run_workflow_reachable; reflexivity).
  split; [exact Hr|]. split; [reflexivity|].
  exact (proj1 (proj2 (observations_in_time_order diamond_dag
                         (final_state diamond_dag) Hr))).
Defined.

(** ** [parse_spec] on its own *)

(** X10.  [parse_spec] validates nothing.  It raises [IndexError]
    exactly when no key of the graph is start-marked, whatever the
    depth allowed to the builder; and when several keys are
    start-marked it builds, without complaint, from the first of them
    in the order of the graph. *)
Theorem parse_spec_without_validation (w : workflow) (fuel : nat) :
  (parse_spec fuel w = Raise IndexError <->
   forall k val, In (k, val) w -> get_start val <> JBool true) /\
  (forall first others,
     start_marked w = first :: others ->
     parse_spec fuel w = build_dag fuel w first).
Proof.
  unfold parse_spec. rewrite <- get_start_nodes_filter. split.
  - split.
    + destruct (get_start_nodes w) as [|a l] eqn:E.
      * intros _ k val Hin Hs.
        assert (Hk : In k (get_start_nodes w))
          by (apply get_start_nodes_In; eauto).
        now rewrite E in Hk.
      * intros Hb. exfalso.
        destruct (build_dag_Raise _ _ _ _ Hb) as [k [Hk _]]. discriminate.
    + intros H. destruct (get_start_nodes w) as [|a l] eqn:E; [reflexivity|].
      exfalso.
      assert (Ha : In a (get_start_nodes w)) by (rewrite E; now left).
      apply get_start_nodes_In in Ha as (val & Hin & Hs).
      exact (H a val Hin Hs).
  - intros first others ->. reflexivity.
Qed.

(** ** How long a traversal lasts *)

Lemma reachable_clock_is_last_visit (root : Node) (s : loop_state) :
  reachable root s -> exists ob, In ob (out s) /\ o_time ob = clock s.
Proof.
  induction 1 as [|s s' _ (ob & Hin & Ht) Hstep].
  - eexists. split; [now left | reflexivity].
  - destruct Hstep as [now t rd sl o | now sl1 x sl2 o Hmin]; simpl in *.
    + eauto.
    + eexists. split; [apply in_or_app; right; now left | reflexivity].
Qed.

(** X11.  With delays that are not negative, a traversal lasts as long
    as its longest path: when the main coroutine is done, the clock
    stands at the sum of the delays down to some node of the tree, and
    no node of the tree has a larger sum. *)
Theorem traversal_lasts_as_long_as_longest_path (root : Node)
    (s : loop_state) :
  nonneg_delays root = true ->
  reachable root s ->
  done (out s) [] root = true ->
  (exists pos n d,
     subtree root pos = Some n /\ path_delay root pos = Some d /\
     (clock s == d)%Q) /\
  (forall pos n d,
     subtree root pos = Some n -> path_delay root pos = Some d ->
     (d <= clock s)%Q).
Proof.
  intros Hnn Hreach Hdone.
  destruct (reachable_timed root s Hnn Hreach) as (Hout & _ & _).
  destruct (reachable_clocked root s Hreach) as (_ & Hpast & _).
  split.
  - destruct (reachable_clock_is_last_visit root s Hreach) as (ob & Hin & Ht).
    destruct (Hout ob Hin) as (n & d & Hs & _ & Hd & Heq).
    exists (o_pos ob), n, d. rewrite <- Ht. auto.
  - intros pos n d Hs Hd.
    pose proof (subtree_In_tasks_of pos root n [] Hs) as Hin. simpl in Hin.
    rewrite done_true_iff in Hdone.
    pose proof (Hdone pos (name n) Hin) as Hv.
    apply visited_true_iff, in_map_iff in Hv as (ob & Hpos & Hob).
    destruct (Hout ob Hob) as (n' & d' & _ & _ & Hd' & Heq).
    rewrite Hpos, Hd in Hd'. injection Hd' as <-.
    rewrite <- Heq. now apply Hpast.
Qed.

Lemma traversal_lasts_as_long_as_longest_path_witness :
  nonneg_delays diamond_dag = true /\
  reachable diamond_dag (final_state diamond_dag) /\
  done (out (final_state diamond_dag)) [] diamond_dag = true /\
  (clock (final_state diamond_dag) == 3)%Q /\
  forall pos n d,
    subtree diamond_dag pos = Some n -> path_delay diamond_dag pos = Some d ->
    (d <= clock (final_state diamond_dag))%Q.
Proof.
  assert (Hr : reachable diamond_dag (final_state diamond_dag))
    by (apply run_workflow_reachable; reflexivity).
  split; [reflexivity|]. split; [exact Hr|]. split; [reflexivity|].
  split; [reflexivity|].
  exact (proj2 (traversal_lasts_as_long_as_longest_path diamond_dag
                  (final_state diamond_dag) eq_refl Hr eq_refl)).
Defined.

(** ** When the builder returns, and what it never looks at *)

Lemma comprehension_OutOfFuel (rec : string -> outcome Node)
    (edges : dict Q) :
  forall ns,
    comprehension rec edges ns = OutOfFuel ->
    exists m, In m ns /\ rec m = OutOfFuel.
Proof.
  induction ns as [|n ns IH]; simpl; intros H; [discriminate|].
  destruct (rec n) as [child|e|] eqn:Er; try discriminate.
  - destruct (dict_get edges n) as [t|]; [|discriminate].
    destruct (comprehension rec edges ns) as [es|e|] eqn:Ec; try discriminate.
    destruct (IH eq_refl) as (m & Hm & Hr). exists m. auto.
  - exists n. auto.
Qed.

(** A recursion that is cut short has followed a path as long as the
    stack is deep, through keys of the graph. *)
Lemma build_dag_OutOfFuel_path (w : workflow) :
  forall fuel n,
    build_dag fuel w n = OutOfFuel ->
    exists p b,
      graph_path w n p b /\ length p = fuel /\
      incl (removelast (n :: p)) (dict_keys w).
Proof.
  induction fuel as [|fuel IH]; intros n H.
  - exists [], n. repeat split. intros x [].
  - rewrite build_dag_S in H.
    destruct (dict_get w n) as [val|] eqn:Hg; [|discriminate].
    destruct (comprehension _ _ _) as [es|e|] eqn:Ec; try discriminate.
    destruct (comprehension_OutOfFuel _ _ _ Ec) as (m & Hm & Hr).
    destruct (IH m Hr) as (p & b & Hp & Hlen & Hincl).
    exists (m :: p), b. split; [|split].
    + simpl. split; [|assumption]. exists val. auto.
    + simpl. now rewrite Hlen.
    + change (removelast (n :: m :: p)) with (n :: removelast (m :: p)).
      intros x [<- | Hx]; [|now apply Hincl].
      eapply dict_get_Some_key; eauto.
Qed.

Lemma removelast_NoDup_length {A : Type} (a : A) (l : list A) :
  NoDup (a :: l) ->
  NoDup (removelast (a :: l)) /\ length (removelast (a :: l)) = length l.
Proof.
  intros Hnd.
  assert (Hne : a :: l <> []) by discriminate.
  pose proof (app_removelast_last a Hne) as Heq.
  split.
  - rewrite Heq in Hnd. now apply NoDup_app_remove_r in Hnd.
  - apply (f_equal (@length A)) in Heq. rewrite length_app in Heq.
    change (length (a :: l)) with (S (length l)) in Heq.
    change (length [last (a :: l) a]) with 1 in Heq. lia.
Qed.

(** Where no path comes back to a name, a stack deeper than the graph
    has keys is deep enough for the builder. *)
Lemma build_dag_acyclic_ends (w : workflow) (root : string) (fuel : nat) :
  acyclic_from w root -> length w < fuel ->
  build_dag fuel w root <> OutOfFuel.
Proof.
  intros Hacyc Hf Hb.
  destruct (build_dag_OutOfFuel_path w fuel root Hb)
    as (p & b & Hp & Hlen & Hincl).
  destruct (removelast_NoDup_length root p (Hacyc p b Hp)) as [Hnd Hl].
  pose proof (NoDup_incl_length Hnd Hincl) as Hle.
  unfold dict_keys in Hle. rewrite length_map in Hle. lia.
Qed.

Lemma build_dag_acyclic_closed_returns (w : workflow) (root : string) :
  acyclic_from w root -> closed_from w root ->
  exists t, forall fuel, length w < fuel -> build_dag fuel w root = Ok t.
Proof.
  intros Hacyc Hclosed.
  destruct (build_dag (S (length w)) w root) as [t|e|] eqn:Hb.
  - exists t. intros fuel Hf.
    eapply build_dag_stable; [exact Hb | discriminate | lia].
  - exfalso. destruct (build_dag_Raise_reachable _ _ _ _ Hb)
      as (k & r & _ & Hk & Hr). exact (Hclosed r k Hr Hk).
  - exfalso. eapply build_dag_acyclic_ends; [exact Hacyc| |exact Hb]. lia.
Qed.

Lemma comprehension_local (rec rec' : string -> outcome Node)
    (edges : dict Q) :
  forall ns,
    (forall n, In n ns -> rec' n = rec n) ->
    comprehension rec' edges ns = comprehension rec edges ns.
Proof.
  induction ns as [|n ns IH]; simpl; intros H; [reflexivity|].
  rewrite (H n (or_introl eq_refl)).
  rewrite IH by (intros m Hm; apply H; now right). reflexivity.
Qed.

(** The builder reads nothing but what the root reaches. *)
Lemma build_dag_local (w w' : workflow) :
  forall fuel n,
    (forall p a, graph_path w n p a -> dict_get w' a = dict_get w a) ->
    build_dag fuel w' n = build_dag fuel w n.
Proof.
  induction fuel as [|fuel IH]; intros n H; [reflexivity|].
  rewrite !build_dag_S. rewrite (H [] n eq_refl).
  destruct (dict_get w n) as [val|] eqn:Hg; [|reflexivity].
  rewrite (comprehension_local (build_dag fuel w) (build_dag fuel w'));
    [reflexivity|].
  intros m Hm. apply IH. intros p a Hp. apply (H (m :: p) a).
  simpl. split; [|assumption]. exists val. auto.
Qed.

Lemma validate_spec_within_single_start (fuel : nat) (w : workflow)
    (start : string) :
  get_start_nodes w = [start] ->
  validate_spec_within fuel (Some w) =
  match is_cyclical fuel w start [] with
  | Ok (true, _) => Raise (TypeError cycle_found)
  | Ok (false, _) => Ok tt
  | Raise e => Raise e
  | OutOfFuel => OutOfFuel
  end.
Proof.
  intros H. unfold validate_spec_within. now rewrite H.
Qed.

Lemma validate_spec_within_Ok_inv (fuel : nat) (w : workflow) :
  validate_spec_within fuel (Some w) = Ok tt ->
  exists start v,
    get_start_nodes w = [start] /\
    is_cyclical fuel w start [] = Ok (false, v).
Proof.
  unfold validate_spec_within.
  destruct (get_start_nodes w) as [|a l] eqn:E; [discriminate|].
  destruct (1 <? length (a :: l)) eqn:E'; [discriminate|].
  apply Nat.ltb_ge in E'. destruct l; [|simpl in E'; lia].
  destruct (is_cyclical fuel w a []) as [[[] v]| |] eqn:Hc;
    try discriminate.
  intros _. now exists a, v.
Qed.

Lemma validate_spec_within_enough (w : workflow) :
  validate_spec_within (enough_fuel w) (Some w) = validate_spec (Some w).
Proof. reflexivity. Qed.

Lemma is_cyclical_deep_enough (w : workflow) (fuel : nat) (n : string) :
  is_cyclical fuel w n [] = OutOfFuel -> fuel <= length w.
Proof.
  intros H. destruct (Nat.le_gt_cases fuel (length w)) as [|Hlt];
    [assumption|]. exfalso.
  apply (is_cyclical_total w fuel n []); [|exact H].
  pose proof (unvisited_le_length w []). lia.
Qed.

(** ** Claims that rest on the lemmas above *)

(** C2, amended.  When an edge that the root reaches names a node absent
    from the graph, there is no error kind of its own.  Whatever the
    depth of the stack, the builder never returns a tree, and what it
    raises is the lookup failure [KeyError] of an absent name that the
    root reaches.  Where no path from the root comes back to a name,
    the builder does raise that [KeyError], with any stack deeper than
    the graph has keys; where one does, the builder may instead recurse
    until the stack is exhausted.  When the root is the one start node,
    the validator never returns: it raises the cycle error, or the
    [KeyError] of an absent name that the root reaches, and then the
    builder raises the same; its stack is exhausted only when it is no
    deeper than the graph has keys.  Neither reads anything but what
    the root reaches: a change of the rest of the graph, its dangling
    edges included, changes neither result. *)
Theorem dangling_edge_raises_KeyError (w : workflow) (root : string)
    (p : list string) (a b : string) :
  graph_path w root p a ->
  dangling_edge w a b ->
  (forall fuel,
     match build_dag fuel w root with
     | Ok _ => False
     | Raise e =>
         exists k r,
           e = KeyError k /\ dict_get w k = None /\ graph_path w root r k
     | OutOfFuel => True
     end) /\
  (acyclic_from w root ->
   exists k r,
     dict_get w k = None /\ graph_path w root r k /\
     forall fuel, length w < fuel ->
       build_dag fuel w root = Raise (KeyError k)) /\
  (get_start_nodes w = [root] ->
   forall fuel,
     match validate_spec_within fuel (Some w) with
     | Ok _ => False
     | Raise (TypeError m) => m = cycle_found
     | Raise (KeyError k) =>
         dict_get w k = None /\ (exists r, graph_path w root r k) /\
         parse_spec fuel w = Raise (KeyError k)
     | Raise IndexError => False
     | OutOfFuel => fuel <= length w
     end) /\
  (forall w',
     (forall q c, graph_path w root q c -> dict_get w' c = dict_get w c) ->
     forall fuel,
       build_dag fuel w' root = build_dag fuel w root /\
       is_cyclical fuel w' root [] = is_cyclical fuel w root []).
Proof.
  intros Hp Hd.
  assert (Hnever : forall fuel t, build_dag fuel w root <> Ok t)
    by (intros fuel t; eapply build_dag_no_dangling; eauto).
  split; [|split; [|split]].
  - intros fuel. destruct (build_dag fuel w root) as [t|e|] eqn:Hb.
    + exact (Hnever fuel t Hb).
    + now apply build_dag_Raise_reachable in Hb.
    + exact I.
  - intros Hacyc.
    destruct (build_dag (S (length w)) w root) as [t|e|] eqn:Hb.
    + exfalso. exact (Hnever _ t Hb).
    + destruct (build_dag_Raise_reachable _ _ _ _ Hb)
        as (k & r & -> & Hk & Hr).
      exists k, r. split; [assumption|]. split; [assumption|].
      intros fuel Hf. eapply build_dag_stable; [exact Hb | discriminate | lia].
    + exfalso. eapply build_dag_acyclic_ends; [exact Hacyc| |exact Hb]. lia.
  - intros Hstart fuel.
    rewrite (validate_spec_within_single_start fuel w root Hstart).
    unfold parse_spec. rewrite Hstart.
    pose proof (is_cyclical_agrees w fuel root []) as Hag.
    unfold agrees in Hag.
    destruct (is_cyclical fuel w root []) as [[[] v]|e|] eqn:Hc.
    + reflexivity.
    + destruct Hag as [t Ht]. exact (Hnever fuel t Ht).
    + destruct (is_cyclical_Raise _ _ _ _ _ Hc) as (k & r & -> & Hk & Hr).
      split; [assumption|]. split; [now exists r | assumption].
    + eapply is_cyclical_deep_enough; eauto.
  - intros w' Hloc fuel. split.
    + now apply build_dag_local.
    + now apply is_cyclical_local.
Qed.

Lemma dangling_edge_raises_KeyError_witness :
  graph_path DANGLING "A" [] "A" /\
  dangling_edge DANGLING "A" "B" /\
  (forall fuel,
     match build_dag fuel DANGLING "A" with
     | Ok _ => False
     | Raise e =>
         exists k r,
           e = KeyError k /\ dict_get DANGLING k = None /\
           graph_path DANGLING "A" r k
     | OutOfFuel => True
     end) /\
  (acyclic_from DANGLING "A" ->
   exists k r,
     dict_get DANGLING k = None /\ graph_path DANGLING "A" r k /\
     forall fuel, length DANGLING < fuel ->
       build_dag fuel DANGLING "A" = Raise (KeyError k)) /\
  (get_start_nodes DANGLING = ["A"] ->
   forall fuel,
     match validate_spec_within fuel (Some DANGLING) with
     | Ok _ => False
     | Raise (TypeError m) => m = cycle_found
     | Raise (KeyError k) =>
         dict_get DANGLING k = None /\
         (exists r, graph_path DANGLING "A" r k) /\
         parse_spec fuel DANGLING = Raise (KeyError k)
     | Raise IndexError => False
     | OutOfFuel => fuel <= length DANGLING
     end) /\
  (forall w',
     (forall q c, graph_path DANGLING "A" q c ->
                  dict_get w' c = dict_get DANGLING c) ->
     forall fuel,
       build_dag fuel w' "A" = build_dag fuel DANGLING "A" /\
       is_cyclical fuel w' "A" [] = is_cyclical fuel DANGLING "A" []).
Proof.
  assert (Hd : dangling_edge DANGLING "A" "B").
  { split; [|reflexivity].
    exists (mkDescriptor (Some (JBool true)) (Some [("B", 0.5%Q)])).
    split; [reflexivity | simpl; auto]. }
  split; [reflexivity|]. split; [exact Hd|].
  exact (dangling_edge_raises_KeyError DANGLING "A" [] "A" "B" eq_refl Hd).
Defined.

(** A dangling edge that the start node does not reach goes unseen:
    the graph passes validation and is built. *)
Example unseen_dangling_edge_passes :
  dangling_edge UNSEEN_DANGLING "X" "Z" /\
  validate_spec (Some UNSEEN_DANGLING) = Ok tt /\
  parse_spec 3 UNSEEN_DANGLING = Ok interleaved_dag.
Proof.
  repeat split; try reflexivity.
  exists (mkDescriptor None (Some [("Z", 1%Q)])).
  split; [reflexivity | simpl; auto].
Qed.

(** C8.  On a graph in which no path from the root comes back to a
    name and every name that the root reaches is a key, the builder
    returns a tree, the same with any stack deeper than the graph has
    keys; and a node reached from the root by two different paths is
    built once per path: the tree holds, at two different positions,
    below the names of the one path and below the names of the other,
    the same full tree of that node. *)
Theorem build_dag_duplicates_shared_nodes (w : workflow) (root : string)
    (p1 p2 : list string) (b : string) :
  acyclic_from w root ->
  closed_from w root ->
  graph_path w root p1 b ->
  graph_path w root p2 b ->
  p1 <> p2 ->
  exists t,
    (forall fuel, length w < fuel -> build_dag fuel w root = Ok t) /\
    exists pos1 pos2 tb,
      pos1 <> pos2 /\
      names_along t pos1 = Some p1 /\
      names_along t pos2 = Some p2 /\
      subtree t pos1 = Some tb /\
      subtree t pos2 = Some tb /\
      name tb = b /\
      forall fuel, length w < fuel -> build_dag fuel w b = Ok tb.
Proof.
  intros Hacyc Hclosed H1 H2 Hne.
  destruct (build_dag_acyclic_closed_returns w root Hacyc Hclosed)
    as [t Ht].
  exists t. split; [exact Ht|].
  pose proof (Ht (S (length w)) (Nat.lt_succ_diag_r _)) as Hb.
  destruct (build_dag_path_position w p1 _ root t b Hb H1)
    as (pos1 & t1 & Hn1 & Hs1 & Hb1).
  destruct (build_dag_path_position w p2 _ root t b Hb H2)
    as (pos2 & t2 & Hn2 & Hs2 & Hb2).
  destruct (build_dag_subtree w pos1 _ root t t1 Hb Hs1) as [f1 Hf1].
  destruct (build_dag_subtree w pos2 _ root t t2 Hb Hs2) as [f2 Hf2].
  rewrite Hb1 in Hf1. rewrite Hb2 in Hf2.
  assert (t2 = t1) by (eapply build_dag_fuel_independent; eauto). subst t2.
  assert (Hacyc_b : acyclic_from w b).
  { intros q c Hq.
    pose proof (Hacyc (p1 ++ q) c (graph_path_app w p1 root b q c H1 Hq))
      as Hnd.
    destruct p1 as [|m p1'].
    - simpl in H1. subst b. exact Hnd.
    - assert (Hsplit : exists l, root :: (m :: p1') ++ q = l ++ b :: q).
      { clear - H1. revert root m H1.
        induction p1' as [|x p1' IH]; intros root m H1.
        - simpl in H1. destruct H1 as [_ <-]. now exists [root].
        - destruct H1 as [He H1]. destruct (IH m x H1) as [l Hl].
          exists (root :: l). simpl. simpl in Hl. now rewrite Hl. }
      destruct Hsplit as [l Hl]. rewrite Hl in Hnd.
      now apply NoDup_app_remove_l in Hnd. }
  assert (Hclosed_b : closed_from w b).
  { intros q c Hq. apply (Hclosed (p1 ++ q) c).
    eapply graph_path_app; eauto. }
  destruct (build_dag_acyclic_closed_returns w b Hacyc_b Hclosed_b)
    as [tb Htb].
  assert (tb = t1).
  { eapply build_dag_fuel_independent; [|exact Hf1].
    apply (Htb (S (length w))). lia. }
  subst tb.
  exists pos1, pos2, t1. repeat split; auto.
  intros ->. congruence.
Qed.

Lemma build_dag_duplicates_shared_nodes_witness :
  acyclic_from DIAMOND "A" /\
  closed_from DIAMOND "A" /\
  graph_path DIAMOND "A" ["B"; "D"] "D" /\
  graph_path DIAMOND "A" ["C"; "D"] "D" /\
  exists t,
    (forall fuel, length DIAMOND < fuel -> build_dag fuel DIAMOND "A" = Ok t) /\
    exists pos1 pos2 tb,
      pos1 <> pos2 /\
      names_along t pos1 = Some ["B"; "D"] /\
      names_along t pos2 = Some ["C"; "D"] /\
      subtree t pos1 = Some tb /\
      subtree t pos2 = Some tb /\
      name tb = "D" /\
      forall fuel, length DIAMOND < fuel -> build_dag fuel DIAMOND "D" = Ok tb.
Proof.
  assert (Hacyc : acyclic_from DIAMOND "A").
  { intros q c Hq.
    exact (walk_false_NoDup DIAMOND (enough_fuel DIAMOND) "A" [] eq_refl
             (NoDup_nil _) q c Hq). }
  assert (Hclosed : closed_from DIAMOND "A").
  { intros q c Hq.
    exact (build_dag_reaches_keys DIAMOND 3 "A" diamond_dag q c eq_refl Hq). }
  assert (H1 : graph_path DIAMOND "A" ["B"; "D"] "D")
    by (simpl; repeat split;
        eexists; (split; [reflexivity | simpl; auto])).
  assert (H2 : graph_path DIAMOND "A" ["C"; "D"] "D")
    by (simpl; repeat split;
        eexists; (split; [reflexivity | simpl; auto])).
  split; [exact Hacyc|]. split; [exact Hclosed|].
  split; [exact H1|]. split; [exact H2|].
  apply (build_dag_duplicates_shared_nodes DIAMOND "A" ["B"; "D"] ["C"; "D"]
           "D" Hacyc Hclosed H1 H2).
  discriminate.
Defined.

Lemma wf_dict_same_value {V : Type} (d : dict V) (k : string) (v v' : V) :
  wf_dict d -> In (k, v) d -> In (k, v') d -> v = v'.
Proof.
  intros Hwf H1 H2.
  pose proof (wf_dict_items d Hwf k v H1) as E1.
  pose proof (wf_dict_items d Hwf k v' H2) as E2. congruence.
Qed.

(** C10.  Only a start field that is the boolean [True] itself marks a
    start node.  In every graph the names collected are exactly the
    keys of the descriptors whose start value is [True]; so in every
    graph, whether or not another node is a start node, a node whose
    start value is anything else, a truthy number or string included,
    is not collected; and a graph in which no start value is [True]
    fails validation for want of a start node. *)
Theorem start_marking_is_identity_with_True (w : workflow) :
  (forall k,
     In k (get_start_nodes w) <->
     exists val, In (k, val) w /\ get_start val = JBool true) /\
  (wf_dict w ->
   forall k val,
     In (k, val) w -> get_start val <> JBool true ->
     ~ In k (get_start_nodes w)) /\
  ((forall k val, In (k, val) w -> get_start val <> JBool true) ->
   validate_spec (Some w) = Raise (TypeError no_start_nodes_found)).
Proof.
  split; [exact (get_start_nodes_In w)|]. split.
  - intros Hwf k val Hin Hne Hk.
    apply get_start_nodes_In in Hk as (val' & Hin' & Hs).
    apply Hne. now rewrite (wf_dict_same_value w k val val' Hwf Hin Hin').
  - intros H. apply validate_spec_no_start.
    destruct (get_start_nodes w) as [|a l] eqn:E; [reflexivity|]. exfalso.
    assert (Ha : In a (get_start_nodes w)) by (rewrite E; now left).
    apply get_start_nodes_In in Ha as (val & Hin & Hs).
    exact (H a val Hin Hs).
Qed.

Lemma start_marking_is_identity_with_True_witness :
  truthy (JNum 1%Q) = true /\
  truthy (JStr "yes") = true /\
  get_start_nodes MIXED = ["A"] /\
  ~ In "B" (get_start_nodes MIXED) /\
  validate_spec (Some MIXED) = Ok tt /\
  validate_spec (Some TRUTHY_STARTS) = Raise (TypeError no_start_nodes_found).
Proof.
  split; [reflexivity|]. split; [reflexivity|]. split; [reflexivity|].
  split; [|split; [reflexivity|]].
  - apply (proj1 (proj2 (start_marking_is_identity_with_True MIXED))
             (nodupb_NoDup (dict_keys MIXED) eq_refl) "B"
             (mkDescriptor (Some (JNum 1%Q)) None)).
    + right. now left.
    + discriminate.
  - apply (proj2 (proj2 (start_marking_is_identity_with_True TRUTHY_STARTS))).
    intros k val [[= <- <-] | [[= <- <-] | []]]; discriminate.
Defined.

(** ** Every edge of a visited node has its task *)

Lemma start_loop_scheduled (root : Node) : scheduled root (start_loop root).
Proof.
  unfold scheduled, start_loop, visit. simpl.
  intros obp n i e [<- | []] Hs He. simpl in *. injection Hs as <-.
  left. exists (mkTask [i] (time e) (node e)). simpl.
  split; [exact (spawn_In [] root i e He)|]. repeat split; reflexivity.
Qed.

Lemma step_scheduled (root : Node) (s s' : loop_state) :
  nonneg_delays root = true ->
  step s s' -> timed root s -> scheduled root s -> scheduled root s'.
Proof.
  unfold scheduled, child_scheduled.
  intros Hnn Hstep (_ & _ & Tsleep) Hsched.
  destruct Hstep as [now t rd sl o | now sl1 x sl2 o Hmin]; simpl in *.
  - intros obp n i e Hin Hs He.
    destruct (Hsched obp n i e Hin Hs He)
      as [(tk & Htk & Hpos & Hdelay & Hnode & Hclock)
         | [(y & Hy & Hpos & Hnode & Hwake) | (ob & Hob)]].
    + destruct Htk as [<- | Htk].
      * right. left. exists (suspend now t). unfold suspend. simpl.
        split; [apply in_or_app; right; now left|].
        split; [assumption|]. split; [assumption|].
        rewrite Hdelay, wake_time_nonneg, Hclock; [reflexivity|].
        eapply nonneg_delays_edge; eauto. eapply nth_error_In; eauto.
      * left. exists tk. auto.
    + right. left. exists y. split; [apply in_or_app; now left | auto].
    + right. right. now exists ob.
  - intros obp n i e Hin Hs He.
    apply in_app_or in Hin as [Hin | [<- | []]].
    + destruct (Hsched obp n i e Hin Hs He)
        as [(tk & [] & _)
           | [(y & Hy & Hpos & Hnode & Hwake)
             | (ob & Hob & Hrest)]].
      * apply in_app_or in Hy as [Hy | [<- | Hy]].
        -- right. left. exists y.
           split; [apply in_or_app; now left | auto].
        -- right. right.
           exists (mkObservation (s_wake x) (s_pos x) (name (s_node x))).
           simpl. split; [apply in_or_app; right; now left|].
           split; [assumption|]. split; [now rewrite Hnode | assumption].
        -- right. left. exists y.
           split; [apply in_or_app; now right | auto].
      * right. right. exists ob.
        split; [apply in_or_app; now left | assumption].
    + simpl in *.
      destruct (Tsleep x) as (d & Hsx & _ & _);
        [apply in_or_app; right; now left|].
      rewrite Hsx in Hs. injection Hs as <-.
      left. exists (mkTask (s_pos x ++ [i]) (time e) (node e)). simpl.
      split; [exact (spawn_In (s_pos x) (s_node x) i e He)|].
      repeat split; reflexivity.
Qed.

Lemma reachable_scheduled (root : Node) (s : loop_state) :
  nonneg_delays root = true -> reachable root s -> scheduled root s.
Proof.
  intros Hnn. induction 1 as [|s s' Hreach IH Hstep].
  - apply start_loop_scheduled.
  - eapply step_scheduled; eauto. now apply reachable_timed.
Qed.

(** C3.  With delays that are not negative and a clock that is exact,
    in every state of every run: each observation carries the sum of
    the edge delays from the root down to its node; the visit of a child
    comes its edge delay after the visit of its parent; a task that
    sleeps resumes its edge delay after the visit of the node above it,
    whatever the time elapsed since the start of the run; and every
    edge of every visited node has its task, which is queued at the
    time of that visit, or sleeps until its edge delay after it, or has
    run and observed its node at that time.  The run comes to its end,
    and then every node of the tree has been observed, at the sum of
    the edge delays on its path from the root. *)
Theorem visit_time_is_sum_of_edge_delays (root : Node) (s : loop_state) :
  nonneg_delays root = true ->
  reachable root s ->
  (forall ob, In ob (out s) ->
     exists d, path_delay root (o_pos ob) = Some d /\ (o_time ob == d)%Q) /\
  (forall obp obc i n e,
     In obp (out s) -> In obc (out s) ->
     o_pos obc = o_pos obp ++ [i] ->
     subtree root (o_pos obp) = Some n -> nth_error (edges n) i = Some e ->
     (o_time obc == o_time obp + time e)%Q) /\
  (forall x, In x (sleeping s) ->
     exists obp i n e,
       In obp (out s) /\ s_pos x = o_pos obp ++ [i] /\
       subtree root (o_pos obp) = Some n /\ nth_error (edges n) i = Some e /\
       (s_wake x == o_time obp + time e)%Q) /\
  (forall obp n i e,
     In obp (out s) ->
     subtree root (o_pos obp) = Some n -> nth_error (edges n) i = Some e ->
     child_scheduled s (o_time obp) (o_pos obp ++ [i]) e) /\
  (exists s',
     run_workflow root = Some (Ok s') /\
     reachable root s' /\ done (out s') [] root = true) /\
  (done (out s) [] root = true ->
   forall pos n d,
     subtree root pos = Some n -> path_delay root pos = Some d ->
     exists ob,
       In ob (out s) /\ o_pos ob = pos /\ o_name ob = name n /\
       (o_time ob == d)%Q).
Proof.
  intros Hnn Hreach.
  destruct (reachable_timed root s Hnn Hreach) as (Hout & _ & Hsleep).
  destruct (reachable_causal root s Hreach) as (_ & _ & Hparent).
  split; [|split; [|split; [|split; [|split]]]].
  - intros ob Hob. destruct (Hout ob Hob) as (n & d & _ & _ & Hd & Ht). eauto.
  - intros obp obc i n e Hp Hc Hpos Hs He.
    destruct (Hout obp Hp) as (np & dp & _ & _ & Hdp & Htp).
    destruct (Hout obc Hc) as (nc & dc & _ & _ & Hdc & Htc).
    destruct (path_delay_snoc _ _ _ _ _ _ Hs He Hdp) as [d' [Hd' Heq]].
    rewrite <- Hpos, Hdc in Hd'. injection Hd' as <-.
    now rewrite Htc, Heq, Htp.
  - intros x Hx.
    destruct (Hparent x Hx) as (p & i & obp & Hp & Hin & Hpos).
    destruct (Hsleep x Hx) as (d & Hs & Hd & Hw).
    destruct (Hout obp Hin) as (n & dp & Hsp & _ & Hdp & Htp).
    rewrite Hpos in Hsp, Hdp. rewrite Hp in Hs, Hd.
    destruct (subtree_snoc_inv _ _ _ _ _ Hsp Hs) as [e [He _]].
    destruct (path_delay_snoc _ _ _ _ _ _ Hsp He Hdp) as [d' [Hd' Heq]].
    rewrite Hd in Hd'. injection Hd' as <-.
    exists obp, i, n, e. rewrite Hpos. repeat split; auto.
    now rewrite Hw, Heq, Htp.
  - exact (reachable_scheduled root s Hnn Hreach).
  - apply run_workflow_done.
  - intros Hdone pos n d Hs Hd.
    pose proof (subtree_In_tasks_of pos root n [] Hs) as Hin. simpl in Hin.
    rewrite done_true_iff in Hdone.
    pose proof (Hdone pos (name n) Hin) as Hv.
    apply visited_true_iff, in_map_iff in Hv as (ob & Hpos & Hob).
    destruct (Hout ob Hob) as (n' & d' & Hs' & Hname & Hd' & Heq).
    rewrite Hpos in Hs', Hd'. rewrite Hs in Hs'. injection Hs' as <-.
    rewrite Hd in Hd'. injection Hd' as <-.
    exists ob. auto.
Qed.

Lemma visit_time_is_sum_of_edge_delays_witness :
  nonneg_delays interleaved_dag = true /\
  reachable interleaved_dag (final_state interleaved_dag) /\
  done (out (final_state interleaved_dag)) [] interleaved_dag = true /\
  (forall ob, In ob (out (final_state interleaved_dag)) ->
     exists d,
       path_delay interleaved_dag (o_pos ob) = Some d /\ (o_time ob == d)%Q) /\
  (forall pos n d,
     subtree interleaved_dag pos = Some n ->
     path_delay interleaved_dag pos = Some d ->
     exists ob,
       In ob (out (final_state interleaved_dag)) /\ o_pos ob = pos /\
       o_name ob = name n /\ (o_time ob == d)%Q) /\
  (forall obp n i e,
     In obp (out (start_loop interleaved_dag)) ->
     subtree interleaved_dag (o_pos obp) = Some n ->
     nth_error (edges n) i = Some e ->
     child_scheduled (start_loop interleaved_dag) (o_time obp)
       (o_pos obp ++ [i]) e).
Proof.
  assert (Hr : reachable interleaved_dag (final_state interleaved_dag))
    by (apply run_workflow_reachable; reflexivity).
  pose proof (visit_time_is_sum_of_edge_delays interleaved_dag
                (final_state interleaved_dag) eq_refl Hr)
    as (H1 & _ & _ & _ & _ & H6).
  pose proof (visit_time_is_sum_of_edge_delays interleaved_dag
                (start_loop interleaved_dag) eq_refl (reach_start _))
    as (_ & _ & _ & H4 & _ & _).
  split; [reflexivity|]. split; [exact Hr|]. split; [reflexivity|].
  split; [exact H1|]. split; [exact (H6 eq_refl) | exact H4].
Defined.

(** ** The validator and the program under a stack of a given depth *)

(** X2.  The ways [validate_spec] ends on a well-formed parsed graph,
    whatever the depth of the stack.  It never raises [IndexError].
    Without a start-marked key it raises the no-start error; with two
    or more, the error that carries all of them in the order of the
    graph, before any edge is looked at; with one, it returns, raises
    the cycle error, raises the [KeyError] of a name that is absent
    from the graph and can be reached from the start node, or exhausts
    the stack, and this last only when the stack is no deeper than the
    graph has keys. *)
Theorem validate_spec_outcomes (fuel : nat) (w : workflow) :
  match validate_spec_within fuel (Some w) with
  | Ok _ => exists start, start_marked w = [start]
  | Raise (TypeError no_start_nodes_found) => start_marked w = []
  | Raise (TypeError (more_than_one_start_node_found names)) =>
      names = start_marked w /\ 2 <= length names
  | Raise (TypeError cycle_found) => exists start, start_marked w = [start]
  | Raise (KeyError k) =>
      exists start p,
        start_marked w = [start] /\
        graph_path w start p k /\ dict_get w k = None
  | Raise (TypeError invalid_workflow_spec) => False
  | Raise IndexError => False
  | OutOfFuel => (exists start, start_marked w = [start]) /\ fuel <= length w
  end.
Proof.
  unfold validate_spec_within. rewrite <- get_start_nodes_filter.
  destruct (get_start_nodes w) as [|a l] eqn:Hs; [reflexivity|].
  destruct (1 <? length (a :: l)) eqn:Hl.
  - apply Nat.ltb_lt in Hl. split; [reflexivity | lia].
  - apply Nat.ltb_ge in Hl. destruct l; [|simpl in Hl; lia].
    destruct (is_cyclical fuel w a []) as [[[] v]|e|] eqn:Hc.
    + now exists a.
    + now exists a.
    + destruct (is_cyclical_Raise _ _ _ _ _ Hc) as (k & p & -> & Hk & Hp).
      exists a, p. auto.
    + split; [now exists a|]. eapply is_cyclical_deep_enough; eauto.
Qed.

(** X4.  What the validator accepts.  On a well-formed graph with one
    start node: whatever the depth of the stack, when [validate_spec]
    returns, every name that the start node reaches is a key of the
    graph and is reached along one path only; and with a stack deeper
    than the graph has keys, [validate_spec] returns on every such
    graph.  The part of the graph that the start node reaches has to be
    a tree: a node with two parents is refused like a cycle. *)
Theorem validate_spec_accepts_exactly_trees (w : workflow)
    (start : string) :
  wf_workflow w ->
  get_start_nodes w = [start] ->
  (forall fuel,
     validate_spec_within fuel (Some w) = Ok tt ->
     closed_from w start /\
     forall p1 p2 b,
       graph_path w start p1 b -> graph_path w start p2 b -> p1 = p2) /\
  (forall fuel,
     length w < fuel ->
     closed_from w start ->
     (forall p1 p2 b,
        graph_path w start p1 b -> graph_path w start p2 b -> p1 = p2) ->
     validate_spec_within fuel (Some w) = Ok tt).
Proof.
  intros [_ Hwf] Hstart. split.
  - intros fuel Hv.
    rewrite (validate_spec_within_single_start fuel w start Hstart) in Hv.
    pose proof (is_cyclical_agrees w fuel start []) as Hag.
    unfold agrees in Hag.
    destruct (is_cyclical fuel w start []) as [[[] v]|e|] eqn:Hc;
      try discriminate.
    destruct Hag as [t Ht]. split.
    + intros p b Hp. eapply build_dag_reaches_keys; eauto.
    + apply (build_dag_unique_paths w fuel start t Ht).
      unfold preorder.
      pose proof (is_cyclical_preorder w _ _ _ _ t [] Hc Ht) as Hpre.
      simpl in Hpre. rewrite <- Hpre.
      eapply is_cyclical_NoDup; [exact Hc | constructor].
  - intros fuel Hf Hkeys Huniq.
    rewrite (validate_spec_within_single_start fuel w start Hstart).
    destruct (is_cyclical fuel w start []) as [[[] v]|e|] eqn:Hc.
    + exfalso.
      destruct (is_cyclical_true_two_paths w Hwf _ _ _ _ Hc)
        as (p & b & Hp & [[] | (p' & Hne & Hp')]).
      apply Hne. eapply Huniq; eauto.
    + reflexivity.
    + exfalso.
      destruct (is_cyclical_Raise _ _ _ _ _ Hc) as (k & p & _ & Hk & Hp).
      exact (Hkeys p k Hp Hk).
    + exfalso. apply is_cyclical_deep_enough in Hc. lia.
Qed.

Lemma validate_spec_accepts_exactly_trees_witness :
  wf_workflow INTERLEAVED /\
  get_start_nodes INTERLEAVED = ["A"] /\
  validate_spec_within 3 (Some INTERLEAVED) = Ok tt /\
  closed_from INTERLEAVED "A" /\
  (forall p1 p2 b,
     graph_path INTERLEAVED "A" p1 b -> graph_path INTERLEAVED "A" p2 b ->
     p1 = p2) /\
  validate_spec_within 2 (Some INTERLEAVED) = OutOfFuel.
Proof.
  assert (Hwf : wf_workflow INTERLEAVED)
    by (apply wf_workflowb_sound; reflexivity).
  split; [exact Hwf|]. split; [reflexivity|]. split; [reflexivity|].
  pose proof (proj1 (validate_spec_accepts_exactly_trees INTERLEAVED "A"
                       Hwf eq_refl) 3 eq_refl) as [Hc Hu].
  split; [exact Hc|]. split; [exact Hu | reflexivity].
Defined.

(** X6.  The tree of a well-formed graph that passed validation is
    small.  Whatever the depth of the stack, when [validate_spec]
    returns, [parse_spec] returns within the same depth, and its tree
    names every node once, so it has no more nodes than the graph has
    keys, and no node lies deeper than that number of edges below the
    root. *)
Theorem validated_tree_is_small (fuel : nat) (w : workflow) :
  validate_spec_within fuel (Some w) = Ok tt ->
  exists t,
    parse_spec fuel w = Ok t /\
    NoDup (preorder t) /\
    node_count t <= length w /\
    forall pos t', subtree t pos = Some t' -> length pos <= length w.
Proof.
  intros Hv.
  destruct (validate_spec_within_Ok_inv fuel w Hv)
    as (start & v & Hstart & Hc).
  pose proof (is_cyclical_agrees w fuel start []) as Hag.
  rewrite Hc in Hag. destruct Hag as [t Ht].
  pose proof (is_cyclical_preorder w _ _ _ _ t [] Hc Ht) as Hpre.
  simpl in Hpre.
  assert (Hnd : NoDup v)
    by (eapply is_cyclical_NoDup; [exact Hc | constructor]).
  exists t. unfold parse_spec. rewrite Hstart.
  split; [assumption|]. unfold preorder. rewrite <- Hpre.
  split; [assumption|]. split.
  - unfold node_count.
    rewrite <- (length_map snd (tasks_of [] t)), <- Hpre.
    rewrite <- (length_map fst w).
    apply NoDup_incl_length; [assumption|].
    intros x Hx.
    destruct (is_cyclical_visited_reachable _ _ _ _ _ _ Hc x Hx)
      as [[] | [p Hp]].
    pose proof (build_dag_reaches_keys w _ _ t p x Ht Hp) as Hk.
    destruct (dict_get w x) as [val|] eqn:Hg; [|congruence].
    eapply dict_get_Some_key; eauto.
  - intros pos t' Hs.
    destruct (Nat.le_gt_cases fuel (length w)) as [Hle | Hgt].
    + pose proof (build_dag_depth w pos _ _ t t' Ht Hs). lia.
    + assert (Hc' : is_cyclical (enough_fuel w) w start [] = Ok (false, v)).
      { rewrite (is_cyclical_enough w start [] _ (enough_fuel_enough w)).
        rewrite <- Hc. symmetry. apply is_cyclical_enough.
        pose proof (unvisited_le_length w []). lia. }
      pose proof (is_cyclical_agrees w (enough_fuel w) start []) as Hag.
      rewrite Hc' in Hag. destruct Hag as [t0 Ht0].
      assert (t0 = t) by (eapply build_dag_fuel_independent; eauto).
      subst t0.
      pose proof (build_dag_depth w pos _ _ t t' Ht0 Hs) as Hd.
      unfold enough_fuel in Hd. lia.
Qed.

Lemma validated_tree_is_small_witness :
  validate_spec_within 3 (Some INTERLEAVED) = Ok tt /\
  exists t,
    parse_spec 3 INTERLEAVED = Ok t /\
    NoDup (preorder t) /\
    node_count t <= length INTERLEAVED /\
    forall pos t', subtree t pos = Some t' -> length pos <= length INTERLEAVED.
Proof.
  split; [reflexivity|].
  apply (validated_tree_is_small 3 INTERLEAVED). reflexivity.
Defined.


